(** * Shallow embedding of two onnxruntime Python helpers

    - [orttraining/python/training/onnxblock/_graph_utils.py]: helpers that
      rewrite an ONNX model in place (gradient graph, gradient accumulation).
    - [python/tools/transformers/benchmark_autosuggest_LM/model/model_runner.py]:
      [ModelRunner.process_results], the post-processing of beam-search output.

    Python objects that are mutated in place (the model protobuf, the
    accessor) are the state of a state-and-exception monad; a raised
    exception keeps the mutations done before it.  A Python [str] is a Rocq
    [string] whose characters are read as the code points 0..255. *)

From Stdlib Require Import ZArith Ascii String DecimalString.
From Stdlib Require DecimalPos DecimalZ.
From stdpp Require Import base option list strings gmap.

Local Open Scope Z_scope.
#[local] Set Warnings "-clear-no-such-hyp".

(** ** Python exceptions and the two monads *)

Inductive exn : Type :=
  | IndexError
  | LookupError (msg : string)
  | RuntimeError (msg : string).

Inductive result (A : Type) : Type :=
  | Ok (a : A)
  | Raise (e : exn).
Arguments Ok {A} a.
Arguments Raise {A} e.

#[global] Instance result_ret : MRet result := λ A a, Ok a.
#[global] Instance result_bind : MBind result := λ A B f m,
  match m with
  | Ok a => f a
  | Raise e => Raise e
  end.

(** A computation over a mutable object of type [S]. *)
Definition M (S A : Type) : Type := S → result A * S.

#[global] Instance M_ret {S} : MRet (M S) := λ A a s, (Ok a, s).
#[global] Instance M_bind {S} : MBind (M S) := λ A B f m s,
  match m s with
  | (Ok a, s') => f a s'
  | (Raise e, s') => (Raise e, s')
  end.

Definition get {S} : M S S := λ s, (Ok s, s).
Definition modify {S} (f : S → S) : M S unit := λ s, (Ok tt, f s).
Definition lift {S A} (r : result A) : M S A := λ s, (r, s).

(** ** Python strings *)

(** [str.isdigit] on one character of code point below 256: the ASCII digits
    and the superscripts U+00B2, U+00B3 and U+00B9. *)
Definition isdigit (c : ascii) : bool :=
  let n := N_of_ascii c in
  ((48 <=? n) && (n <=? 57) || (n =? 178) || (n =? 179) || (n =? 185))%N.

(** [str.isspace] on one character of code point below 256. *)
Definition isspace (c : ascii) : bool :=
  let n := N_of_ascii c in
  ((9 <=? n) && (n <=? 13) || (28 <=? n) && (n <=? 32)
   || (n =? 133) || (n =? 160))%N.

(** [s[i]] for a non-negative index. *)
Definition str_item (s : string) (i : nat) : result ascii :=
  match String.get i s with
  | Some c => Ok c
  | None => Raise IndexError
  end.

(** [s.rstrip()]: the longest prefix that does not end in whitespace. *)
Fixpoint rstrip (s : string) : string :=
  match s with
  | EmptyString => EmptyString
  | String c s' =>
      match rstrip s' with
      | EmptyString => if isspace c then EmptyString else String c EmptyString
      | r => String c r
      end
  end.

(** [f"{n}"] for an integer. *)
Definition str_of_int (n : Z) : string := NilZero.string_of_int (Z.to_int n).

(** ** The ONNX protobuf messages, as far as the helpers touch them *)

Inductive Dimension : Type :=
  | DimValue (v : Z)
  | DimParam (p : string)
  | DimUnset.

Inductive TypeProto : Type :=
  | TypeUnset
  | TensorType (elem_type : Z) (shape : option (list Dimension)).

Record ValueInfoProto : Type := {
  vi_name : string;
  vi_type : TypeProto;
  vi_doc_string : string
}.

Record TensorProto : Type := {
  t_name : string;
  t_data_type : Z;
  t_dims : list Z;
  t_raw_data : list Z
}.

Record NodeProto : Type := {
  n_op_type : string;
  n_input : list string;
  n_output : list string;
  n_name : string;
  n_domain : string
}.

Record GraphProto : Type := {
  node : list NodeProto;
  input : list ValueInfoProto;
  output : list ValueInfoProto;
  initializer : list TensorProto
}.

Record ModelProto : Type := {
  ir_version : Z;
  opset_import : list (string * Z);
  graph : GraphProto
}.

(** [onnx.TensorProto.BOOL]. *)
Definition BOOL : Z := 9.

(** [onnx.helper.make_tensor_value_info(name, elem_type, shape)] with a list
    of integers as shape. *)
Definition make_tensor_value_info (name : string) (elem_type : Z) (shape : list Z)
    : ValueInfoProto :=
  {| vi_name := name;
     vi_type := TensorType elem_type (Some (DimValue <$> shape));
     vi_doc_string := "" |}.

(** [onnx.helper.make_node(op_type, inputs, outputs, name=..., domain=...)]. *)
Definition make_node (op_type : string) (inputs outputs : list string)
    (name domain : string) : NodeProto :=
  {| n_op_type := op_type; n_input := inputs; n_output := outputs;
     n_name := name; n_domain := domain |}.

(** [v = copy.deepcopy(v0); v.name = name]. *)
Definition with_name (name : string) (v : ValueInfoProto) : ValueInfoProto :=
  {| vi_name := name; vi_type := vi_type v; vi_doc_string := vi_doc_string v |}.

Definition with_graph (g : GraphProto) (m : ModelProto) : ModelProto :=
  {| ir_version := ir_version m; opset_import := opset_import m; graph := g |}.

(** In-place updates of the repeated fields of [model.graph]. *)
Definition graph_node_append (n : NodeProto) (m : ModelProto) : ModelProto :=
  with_graph {| node := node (graph m) ++ [n]; input := input (graph m);
                output := output (graph m); initializer := initializer (graph m) |} m.

Definition graph_input_append (v : ValueInfoProto) (m : ModelProto) : ModelProto :=
  with_graph {| node := node (graph m); input := input (graph m) ++ [v];
                output := output (graph m); initializer := initializer (graph m) |} m.

(** [del model.graph.output[:]; model.graph.output.extend(outs)]. *)
Definition graph_output_replace (outs : list ValueInfoProto) (m : ModelProto) : ModelProto :=
  with_graph {| node := node (graph m); input := input (graph m);
                output := outs; initializer := initializer (graph m) |} m.

(** [del model.graph.initializer[:]; model.graph.initializer.extend(inits)]. *)
Definition graph_initializer_replace (inits : list TensorProto) (m : ModelProto) : ModelProto :=
  with_graph {| node := node (graph m); input := input (graph m);
                output := output (graph m); initializer := inits |} m.

(** ** [_graph_utils.py] *)

(** The [for] loop of [get_output_from_output_name]. *)
Fixpoint get_output_loop (outs : list ValueInfoProto) (output_name : string)
    : M ModelProto ValueInfoProto :=
  match outs with
  | [] =>
      lift (Raise (LookupError
        ("The provided output name " +:+ output_name +:+ " is not a graph output.")))
  | output :: outs' =>
      if bool_decide (vi_name output = output_name) then mret output
      else get_output_loop outs' output_name
  end.

Definition get_output_from_output_name (output_name : string) : M ModelProto ValueInfoProto :=
  onnx_model ← get;
  get_output_loop (output (graph onnx_model)) output_name.

(** [random.randint(a, b)] draws from the generator state of the [random]
    module; the generator is a parameter of the development. *)
Section RandomNames.
Variable rng : Type.
Variable randint : Z → Z → M rng Z.

Definition get_random_number : M rng Z := randint 0 1000.

Definition generate_random_graph_name (token : string) : M rng string :=
  n ← get_random_number;
  mret (str_of_int n +:+ "." +:+ token).
End RandomNames.

(** [output_names] is either one string or a list of strings. *)
Inductive OutputNames : Type :=
  | OneName (s : string)
  | NameList (l : list string).

(** The accessor object: [accessor.model] is the model the helpers mutate,
    [accessor.eval_model] is unset until [build_gradient_graph] stores a
    deep copy there. *)
Record Accessor : Type := {
  model : ModelProto;
  eval_model : option ModelProto
}.

Definition on_model (f : ModelProto → ModelProto) (a : Accessor) : Accessor :=
  {| model := f (model a); eval_model := eval_model a |}.

(** [l[i]] for a non-negative index. *)
Definition list_item {A} (l : list A) (i : nat) : result A :=
  match l !! i with
  | Some x => Ok x
  | None => Raise IndexError
  end.

Section GradientGraph.
(** [GradientGraphBuilder(model.SerializeToString(), set(output_names),
    all_args_requiring_gradient, output_names[0])], then [build()],
    [get_model()] and [onnx.load_from_string]: the C++ gradient builder is
    a parameter of the development. *)
Variable GradientGraphBuilder :
  ModelProto → gset string → gset string → string → result ModelProto.

(** The loop over [model.graph.initializer], with its two local
    accumulators. *)
Fixpoint initializer_loop (inits : list TensorProto)
    (user_args_not_requiring_grad : list string)
    (all_args_requiring_gradient : gset string) (initializers : list TensorProto)
    : M Accessor (gset string * list TensorProto) :=
  match inits with
  | [] => mret (all_args_requiring_gradient, initializers)
  | initializer :: rest =>
      c ← lift (str_item (t_name initializer) 0);
      if negb (isdigit c) then
        modify (on_model (graph_input_append
          (make_tensor_value_info (t_name initializer) (t_data_type initializer)
             (t_dims initializer))));;
        if bool_decide (t_name initializer ∈ user_args_not_requiring_grad)
        then initializer_loop rest user_args_not_requiring_grad
               all_args_requiring_gradient initializers
        else initializer_loop rest user_args_not_requiring_grad
               ({[t_name initializer]} ∪ all_args_requiring_gradient) initializers
      else
        initializer_loop rest user_args_not_requiring_grad
          all_args_requiring_gradient (initializers ++ [initializer])
  end.

Definition build_gradient_graph
    (user_args_requiring_grad user_args_not_requiring_grad : list string)
    (output_names : OutputNames) : M Accessor (gset string) :=
  accessor ← get;
  '(all_args_requiring_gradient, initializers) ←
    initializer_loop (initializer (graph (model accessor)))
      user_args_not_requiring_grad ∅ [];
  modify (on_model (graph_initializer_replace initializers));;
  modify (λ a, {| model := model a; eval_model := Some (model a) |});;
  let all_args_requiring_gradient :=
    foldl (λ s argument_name, {[argument_name]} ∪ s)
      all_args_requiring_gradient user_args_requiring_grad in
  let output_names :=
    match output_names with
    | OneName s => [s]
    | NameList l => l
    end in
  accessor ← get;
  loss ← lift (list_item output_names 0);
  gradient_model ← lift (GradientGraphBuilder (model accessor)
    (list_to_set output_names) all_args_requiring_gradient loss);
  modify (on_model (λ m,
    {| ir_version := ir_version m;
       opset_import := opset_import gradient_model;
       graph := graph gradient_model |}));;
  mret all_args_requiring_gradient.
End GradientGraph.

(** The loop over [grad_model.graph.output]; [graph_outputs] is the local
    list, nodes and inputs are appended to the model in place. *)
Fixpoint accumulation_loop (gradient_output_names : gset string) (idx : nat)
    (outs : list ValueInfoProto) (graph_outputs : list ValueInfoProto)
    : M ModelProto (list ValueInfoProto) :=
  match outs with
  | [] => mret graph_outputs
  | graph_output :: rest =>
      if bool_decide (vi_name graph_output ∉ gradient_output_names) then
        accumulation_loop gradient_output_names (S idx) rest
          (graph_outputs ++ [graph_output])
      else
        let grad_name := vi_name graph_output in
        let grad_accumulation_buffer_name :=
          grad_name +:+ "." +:+ "accumulation" +:+ "." +:+ "buffer" in
        let grad_accumulation_output_name :=
          grad_name +:+ "." +:+ "accumulation" +:+ "." +:+ "out" in
        let acc_node :=
          make_node "InPlaceAccumulator"
            [grad_accumulation_buffer_name; grad_name; "lazy_reset_grad"]
            [grad_accumulation_output_name]
            ("GradientAccumulator" +:+ str_of_int (Z.of_nat idx))
            "com.microsoft" in
        modify (graph_node_append acc_node);;
        modify (graph_input_append (with_name grad_accumulation_buffer_name graph_output));;
        accumulation_loop gradient_output_names (S idx) rest
          (graph_outputs ++ [with_name grad_accumulation_output_name graph_output])
  end.

Definition build_gradient_accumulation_graph
    (all_args_requiring_gradient_names : gset string) : M ModelProto unit :=
  let gradient_output_names : gset string :=
    set_map (λ arg_name, arg_name +:+ "_grad") all_args_requiring_gradient_names in
  grad_model ← get;
  graph_outputs ←
    accumulation_loop gradient_output_names 0 (output (graph grad_model)) [];
  modify (graph_input_append (make_tensor_value_info "lazy_reset_grad" BOOL [1]));;
  modify (graph_output_replace graph_outputs).

(** The loop of [get_model_parameters]. *)
Fixpoint parameters_loop (inits : list TensorProto)
    (args_not_requiring_gradient : list string)
    (trainable_params non_trainable_params : list TensorProto)
    : result (list TensorProto * list TensorProto) :=
  match inits with
  | [] => Ok (trainable_params, non_trainable_params)
  | initializer :: rest =>
      c ← str_item (t_name initializer) 0;
      if negb (isdigit c) then
        if bool_decide (t_name initializer ∈ args_not_requiring_gradient)
        then parameters_loop rest args_not_requiring_gradient
               trainable_params (non_trainable_params ++ [initializer])
        else parameters_loop rest args_not_requiring_gradient
               (trainable_params ++ [initializer]) non_trainable_params
      else parameters_loop rest args_not_requiring_gradient
             trainable_params non_trainable_params
  end.

Definition get_model_parameters (model : ModelProto)
    (args_not_requiring_gradient : list string)
    : result (list TensorProto * list TensorProto) :=
  parameters_loop (initializer (graph model)) args_not_requiring_gradient [] [].

(** ** [model_runner.py] *)

(** [l[n:]] for an integer [n]: a negative [n] counts from the end. *)
Definition slice_from {A} (n : Z) (l : list A) : list A :=
  if n <? 0 then drop (Z.to_nat (Z.of_nat (length l) + n)) l
  else drop (Z.to_nat n) l.

(** What [process_results] uses of the [Tokenizer] class.  The class is not
    in this file: [decode] is a call into outside code, which returns a
    string or raises. *)
Record Tokenizer : Type := {
  eos_token_id : Z;
  decode : list Z → result string
}.

(** [output_ids] is a tensor of token ids with two or three dimensions. *)
Inductive OutputIds : Type :=
  | Ids2 (rows : list (list Z))
  | Ids3 (rows : list (list (list Z))).

(** [if output_ids.dim() == 2: output_ids = output_ids[:, None]]. *)
Definition expand_ids (output_ids : OutputIds) : list (list (list Z)) :=
  match output_ids with
  | Ids2 rows => (λ row, [row]) <$> rows
  | Ids3 rows => rows
  end.

Section ProcessResults.
(** The element type of [output_probs] and the test [p < 0] on it. *)
Variable prob : Type.
Variable negative : prob → bool.
Variable tokenizer : Tokenizer.

(** [output_probs[i, j]] on a two-dimensional tensor. *)
Definition probs_item (output_probs : list (list prob)) (i j : nat) : result prob :=
  row ← list_item output_probs i;
  list_item row j.

(** [for k in range(len(output_ij)): if output_ij[k] == eos: ...; break]. *)
Fixpoint eos_loop (output_ij : list Z) (ks : list nat) : result (list Z) :=
  match ks with
  | [] => Ok output_ij
  | k :: ks' =>
      t ← list_item output_ij k;
      if bool_decide (t = eos_token_id tokenizer) then Ok (take k output_ij)
      else eos_loop output_ij ks'
  end.

(** Lines 32 to 39: from the token list of one candidate to its text. *)
Definition candidate_text (last_complete_word_position : Z) (output_ij : list Z)
    : result string :=
  output_ij ← eos_loop output_ij (seq 0 (length output_ij));
  let output_ij := slice_from last_complete_word_position output_ij in
  decoded ← decode tokenizer output_ij;
  Ok (rstrip decoded).

(** The loop over the candidates of row [i], from candidate [j] on. *)
Fixpoint candidates_loop (output_probs : list (list prob))
    (last_complete_word_position : Z) (i j : nat) (output_i : list (list Z))
    (returns_i : list string) (probs_i : list prob)
    : result (list string * list prob) :=
  match output_i with
  | [] => Ok (returns_i, probs_i)
  | output_ij :: rest =>
      stop ← match returns_i with
             | [] => Ok false
             | _ :: _ => p ← probs_item output_probs i j; Ok (negative p)
             end;
      if (stop : bool) then Ok (returns_i, probs_i)
      else
        output_text ← candidate_text last_complete_word_position output_ij;
        if bool_decide (output_text ∉ returns_i) then
          p ← probs_item output_probs i j;
          candidates_loop output_probs last_complete_word_position i (S j) rest
            (returns_i ++ [output_text]) (probs_i ++ [p])
        else
          candidates_loop output_probs last_complete_word_position i (S j) rest
            returns_i probs_i
  end.

(** The loop over the rows, from row [i] on. *)
Fixpoint rows_loop (output_probs : list (list prob))
    (last_complete_word_position : Z) (i : nat) (output_ids : list (list (list Z)))
    (returns : list (list string)) (returns_probs : list (list prob))
    : result (list (list string) * list (list prob)) :=
  match output_ids with
  | [] => Ok (returns, returns_probs)
  | output_i :: rest =>
      '(returns_i, probs_i) ←
        candidates_loop output_probs last_complete_word_position i 0 output_i [] [];
      rows_loop output_probs last_complete_word_position (S i) rest
        (returns ++ [returns_i]) (returns_probs ++ [probs_i])
  end.

End ProcessResults.

Definition process_results {prob : Type} (negative : prob → bool)
    (output_ids : OutputIds) (output_probs : list (list prob))
    (tokenizer : Tokenizer) (last_complete_word_position : Z)
    : result (list (list string) * list (list prob)) :=
  rows_loop prob negative tokenizer output_probs last_complete_word_position 0
    (expand_ids output_ids) [] [].

(** The fields of [args] that [autocomplete] reads. *)
Record Args (penalty : Type) : Type := {
  device : string;
  num_words : Z;
  num_suggestions : Z;
  num_beams : Z;
  length_penalty : penalty
}.
Arguments device {penalty} _.
Arguments num_words {penalty} _.
Arguments num_suggestions {penalty} _.
Arguments num_beams {penalty} _.
Arguments length_penalty {penalty} _.

(** The keyword arguments [autocomplete] gives to [LMGenerator]. *)
Record LMGenerator (penalty : Type) : Type := {
  g_max_length : Z;
  g_num_return_sequences : Z;
  g_num_beams : Z;
  g_pad_token_id : Z;
  g_eos_token_ids : list Z;
  g_length_penalty : penalty;
  g_enable_ort : bool
}.
Arguments g_max_length {penalty} _.
Arguments g_num_return_sequences {penalty} _.
Arguments g_num_beams {penalty} _.
Arguments g_pad_token_id {penalty} _.
Arguments g_eos_token_ids {penalty} _.
Arguments g_length_penalty {penalty} _.
Arguments g_enable_ort {penalty} _.

Section Autocomplete.
(** The tensors, the model wrapper and the two calls into code outside this
    file are parameters: [tokenizer.encode_text_with_partial_word],
    [input_ids.size(1)] and [generator.generate]. *)
Variables prob penalty tensor masks wrapper : Type.
Variable negative : prob → bool.
Variable encode_text_with_partial_word :
  string → Z → string → result (tensor * masks * Z).
Variable size_1 : tensor → Z.
Variable generate :
  LMGenerator penalty → wrapper → tensor → masks →
  result (OutputIds * list (list prob)).

Definition autocomplete (args : Args penalty) (model : wrapper) (tokenizer : Tokenizer)
    (input_text : string) (pad_token_id : Z) (is_onnx_model : bool)
    : result (list (list string) * list (list prob)) :=
  '(input_ids, first_token_masks, last_complete_word_position) ←
    encode_text_with_partial_word input_text pad_token_id (device args);
  let generator :=
    {| g_max_length := size_1 input_ids + num_words args;
       g_num_return_sequences := num_suggestions args;
       g_num_beams := num_beams args;
       g_pad_token_id := eos_token_id tokenizer;
       g_eos_token_ids := [eos_token_id tokenizer];
       g_length_penalty := length_penalty args;
       g_enable_ort := is_onnx_model |} in
  '(output_ids, output_probs) ←
    generate generator model input_ids first_token_masks;
  process_results negative output_ids output_probs tokenizer
    last_complete_word_position.
End Autocomplete.

(** ** Notions used to state the properties *)

(** The name begins with a character on which [str.isdigit] holds. *)
Definition begins_with_digit (s : string) : bool :=
  match s with
  | EmptyString => false
  | String c _ => isdigit c
  end.

(** The graph output is the gradient of one of the given arguments: its
    name is [arg_grad] for some [arg] of the set. *)
Definition is_gradient_output (names : gset string) (o : ValueInfoProto) : Prop :=
  set_Exists (λ arg, vi_name o = arg +:+ "_grad") names.

#[global] Instance is_gradient_output_dec names o : Decision (is_gradient_output names o) :=
  set_Exists_dec _ names.

(** The accumulator node the loop builds for the gradient output [o] met at
    position [idx]. *)
Definition accumulator_node (idx : nat) (o : ValueInfoProto) : NodeProto :=
  {| n_op_type := "InPlaceAccumulator";
     n_input := [vi_name o +:+ ".accumulation.buffer"; vi_name o; "lazy_reset_grad"];
     n_output := [vi_name o +:+ ".accumulation.out"];
     n_name := "GradientAccumulator" +:+ str_of_int (Z.of_nat idx);
     n_domain := "com.microsoft" |}.

Fixpoint accumulator_nodes (names : gset string) (idx : nat) (outs : list ValueInfoProto)
    : list NodeProto :=
  match outs with
  | [] => []
  | o :: rest =>
      if decide (is_gradient_output names o)
      then accumulator_node idx o :: accumulator_nodes names (S idx) rest
      else accumulator_nodes names (S idx) rest
  end.

Definition accumulation_buffer (o : ValueInfoProto) : ValueInfoProto :=
  with_name (vi_name o +:+ ".accumulation.buffer") o.

Definition accumulation_output (names : gset string) (o : ValueInfoProto) : ValueInfoProto :=
  if decide (is_gradient_output names o)
  then with_name (vi_name o +:+ ".accumulation.out") o
  else o.

(** The [lazy_reset_grad] graph input. *)
Definition lazy_reset_grad_input : ValueInfoProto :=
  {| vi_name := "lazy_reset_grad";
     vi_type := TensorType BOOL (Some [DimValue 1]);
     vi_doc_string := "" |}.

(** The graph input [build_gradient_graph] makes of an initializer. *)
Definition initializer_value_info (t : TensorProto) : ValueInfoProto :=
  make_tensor_value_info (t_name t) (t_data_type t) (t_dims t).

(** The model with more graph inputs at the end. *)
Definition graph_input_extend (vs : list ValueInfoProto) (m : ModelProto) : ModelProto :=
  with_graph {| node := node (graph m); input := input (graph m) ++ vs;
                output := output (graph m); initializer := initializer (graph m) |} m.

(** The model [build_gradient_graph] hands to the gradient builder and keeps
    as [accessor.eval_model]. *)
Definition eval_model_of (m : ModelProto) : ModelProto :=
  graph_initializer_replace
    (filter (λ t, begins_with_digit (t_name t)) (initializer (graph m)))
    (graph_input_extend
       (initializer_value_info <$>
          filter (λ t, ¬ begins_with_digit (t_name t)) (initializer (graph m))) m).

(** The names of the initializers that are parameters and are not excluded
    by the user. *)
Definition trainable_names (user_args_not_requiring_grad : list string)
    (inits : list TensorProto) : gset string :=
  list_to_set (t_name <$>
    filter (λ t, ¬ begins_with_digit (t_name t) ∧
                 t_name t ∉ user_args_not_requiring_grad) inits).

Definition output_name_list (output_names : OutputNames) : list string :=
  match output_names with
  | OneName s => [s]
  | NameList l => l
  end.

(** The tokens before the first occurrence of [eos]; all of them when
    [eos] does not occur. *)
Definition truncate_at_eos (eos : Z) (toks : list Z) : list Z :=
  match list_find (λ t, t = eos) toks with
  | Some (k, _) => take k toks
  | None => toks
  end.

(** The suggestion text of a candidate: truncate at the first [eos], drop
    the first [last_complete_word_position] tokens, decode, strip the
    trailing whitespace. *)
Definition suggestion_text (tokenizer : Tokenizer) (last_complete_word_position : Z)
    (toks : list Z) : result string :=
  decoded ← decode tokenizer
    (drop (Z.to_nat last_complete_word_position)
       (truncate_at_eos (eos_token_id tokenizer) toks));
  Ok (rstrip decoded).

(** Every character is one of the ASCII digits. *)
Fixpoint all_digits (s : string) : bool :=
  match s with
  | EmptyString => true
  | String c s' => (Ascii.leb "0" c && Ascii.leb c "9") && all_digits s'
  end.

(** ** Sample inputs *)

(** A generator for [random.randint]: a linear congruential sequence. *)
Definition lcg_randint (a b : Z) : M Z Z :=
  λ s, (Ok (a + s mod (b - a + 1)), (1103515245 * s + 12345) mod 2147483648).

(** A gradient builder that returns the model it is given. *)
Definition identity_builder (m : ModelProto) (outputs : gset string)
    (args : gset string) (loss : string) : result ModelProto := Ok m.

Definition sample_weight : TensorProto :=
  {| t_name := "fc1.weight"; t_data_type := 1; t_dims := [4; 2]; t_raw_data := [] |}.

Definition sample_constant : TensorProto :=
  {| t_name := "12.shape"; t_data_type := 7; t_dims := [2]; t_raw_data := [] |}.

Definition sample_unnamed : TensorProto :=
  {| t_name := ""; t_data_type := 1; t_dims := []; t_raw_data := [] |}.

Definition sample_accessor (inits : list TensorProto) : Accessor :=
  {| model :=
       {| ir_version := 7;
          opset_import := [("", 14)];
          graph := {| node := []; input := []; output := []; initializer := inits |} |};
     eval_model := None |}.

(** A tokenizer that writes the token ids in decimal, separated by spaces. *)
Definition sample_tokenizer : Tokenizer :=
  {| eos_token_id := 0;
     decode := λ toks, Ok (String.concat " " (str_of_int <$> toks)) |}.

(** A tokenizer that writes a space after every token id. *)
Definition sample_spaced_tokenizer : Tokenizer :=
  {| eos_token_id := 0;
     decode := λ toks, Ok (String.concat "" ((λ t, str_of_int t +:+ " ") <$> toks)) |}.

(** A tokenizer that knows the token ids below 10 only. *)
Definition sample_small_tokenizer : Tokenizer :=
  {| eos_token_id := 0;
     decode := λ toks,
       if bool_decide (Forall (λ t, t < 10) toks)
       then Ok (String.concat " " (str_of_int <$> toks))
       else Raise (LookupError "unknown token id") |}.

Definition sample_output_ids : OutputIds :=
  Ids3 [[[5; 6; 0; 7]; [5; 7; 0]; [8; 0]; [9]]].

Definition sample_output_probs : list (list Z) := [[-1; 3; -2; 4]].

Definition sample_generated : TensorProto :=
  {| t_name := "22.shape"; t_data_type := 7; t_dims := [1]; t_raw_data := [] |}.

Definition sample_value_info (name : string) : ValueInfoProto :=
  {| vi_name := name; vi_type := TensorType 1 (Some [DimValue 4; DimValue 2]);
     vi_doc_string := "" |}.

Definition sample_grad_model : ModelProto :=
  {| ir_version := 7;
     opset_import := [("", 14)];
     graph := {| node := [];
                 input := [sample_value_info "x"];
                 output := [sample_value_info "loss"; sample_value_info "w_grad";
                            sample_value_info "b_grad"];
                 initializer := [] |} |}.

(** ** Properties of [_graph_utils.py] *)

Lemma is_gradient_output_elem_of names o :
  is_gradient_output names o ↔
  vi_name o ∈ (set_map (λ arg, arg +:+ "_grad") names : gset string).
Proof.
  unfold is_gradient_output, set_Exists. rewrite elem_of_map.
  split; intros (arg & ? & ?); exists arg; done.
Qed.

Lemma get_output_loop_state outs output_name m :
  (get_output_loop outs output_name m).2 = m.
Proof.
  induction outs as [|o outs IH]; simpl; [done|].
  case_bool_decide; [done|apply IH].
Qed.

Lemma get_output_loop_found outs output_name m i o :
  outs !! i = Some o →
  vi_name o = output_name →
  (∀ j o', j < i → outs !! j = Some o' → vi_name o' ≠ output_name)%nat →
  (get_output_loop outs output_name m).1 = Ok o.
Proof.
  revert i. induction outs as [|o0 outs IH]; intros i Hi Hname Hfirst; [done|].
  simpl. destruct i as [|i]; simplify_eq/=.
  - by rewrite bool_decide_eq_true_2.
  - rewrite bool_decide_eq_false_2 by (apply (Hfirst 0%nat); [lia|done]).
    apply (IH i); [done..|].
    intros j o' Hj Ho'. apply (Hfirst (S j)); [lia|done].
Qed.

Lemma get_output_loop_raises outs output_name m :
  (∃ msg, (get_output_loop outs output_name m).1 = Raise (LookupError msg)) ↔
  ∀ o, o ∈ outs → vi_name o ≠ output_name.
Proof.
  induction outs as [|o0 outs IH]; simpl.
  - split; [intros _ o Ho; inversion Ho|eauto].
  - case_bool_decide as Hn; simpl.
    + split; [by intros [? ?]|]. intros H. destruct (H o0); [left|done].
    + rewrite IH. split.
      * intros H o [->|?]%elem_of_cons; auto.
      * intros H o ?. apply H. by right.
Qed.

(** C8. [get_output_from_output_name] returns the first graph output with
    the given name when there is one, raises [LookupError] exactly when no
    graph output has that name, and leaves the model as it was. *)
Theorem get_output_from_output_name_spec (onnx_model : ModelProto) (output_name : string) :
  let r := get_output_from_output_name output_name onnx_model in
  let outs := output (graph onnx_model) in
  r.2 = onnx_model ∧
  (∀ i o, outs !! i = Some o → vi_name o = output_name →
     (∀ j o', j < i → outs !! j = Some o' → vi_name o' ≠ output_name)%nat →
     r.1 = Ok o) ∧
  ((∃ msg, r.1 = Raise (LookupError msg)) ↔ ∀ o, o ∈ outs → vi_name o ≠ output_name) ∧
  ((∀ o, o ∈ outs → vi_name o ≠ output_name) ∨ ∃ o, r.1 = Ok o).
Proof.
  unfold get_output_from_output_name; simpl.
  split_and!.
  - apply get_output_loop_state.
  - intros i o. apply get_output_loop_found.
  - apply get_output_loop_raises.
  - destruct (get_output_loop (output (graph onnx_model)) output_name onnx_model).1
      as [o|e] eqn:Hr; [eauto|]. left.
    apply (get_output_loop_raises _ _ onnx_model).
    clear -Hr. revert Hr.
    induction (output (graph onnx_model)) as [|o0 outs IH]; simpl.
    + intros [= <-]. eauto.
    + case_bool_decide; [done|apply IH].
Qed.

(** What one run of the accumulation loop does to the model and to its
    local list of outputs. *)
Lemma accumulation_loop_run names outs idx graph_outputs (m : ModelProto) :
  accumulation_loop (set_map (λ arg, arg +:+ "_grad") names) idx outs graph_outputs m =
  (Ok (graph_outputs ++ (accumulation_output names <$> outs)),
   with_graph
     {| node := node (graph m) ++ accumulator_nodes names idx outs;
        input := input (graph m) ++
                 (accumulation_buffer <$> filter (is_gradient_output names) outs);
        output := output (graph m);
        initializer := initializer (graph m) |} m).
Proof.
  revert idx graph_outputs m.
  induction outs as [|o outs IH]; intros idx graph_outputs m.
  - simpl. rewrite !app_nil_r. by destruct m as [? ? []].
  - cbn [accumulation_loop accumulator_nodes fmap list_fmap].
    rewrite filter_cons. unfold accumulation_output at 1.
    destruct (decide (is_gradient_output names o)) as [Hg|Hg].
    + rewrite bool_decide_eq_false_2
        by (intros Hn; apply Hn; by apply is_gradient_output_elem_of).
      unfold mbind, M_bind, modify; simpl. rewrite IH; simpl.
      rewrite <- !(assoc_L (++)). done.
    + rewrite bool_decide_eq_true_2
        by (intros Hn; apply Hg; by apply is_gradient_output_elem_of).
      rewrite IH. rewrite <- !(assoc_L (++)). done.
Qed.

Lemma build_gradient_accumulation_graph_run names (grad_model : ModelProto) :
  build_gradient_accumulation_graph names grad_model =
  (Ok (),
   with_graph
     {| node := node (graph grad_model) ++
                accumulator_nodes names 0 (output (graph grad_model));
        input := input (graph grad_model) ++
                 (accumulation_buffer <$>
                    filter (is_gradient_output names) (output (graph grad_model))) ++
                 [lazy_reset_grad_input];
        output := accumulation_output names <$> output (graph grad_model);
        initializer := initializer (graph grad_model) |} grad_model).
Proof.
  unfold build_gradient_accumulation_graph, mbind, M_bind, get.
  rewrite accumulation_loop_run. simpl.
  unfold modify, graph_input_append, graph_output_replace, with_graph; simpl.
  by rewrite <- (assoc_L (++)).
Qed.

Lemma accumulator_nodes_Forall2 names idx outs :
  Forall2 (λ n o,
      n_op_type n = "InPlaceAccumulator" ∧ n_domain n = "com.microsoft" ∧
      n_input n = [vi_name o +:+ ".accumulation.buffer"; vi_name o; "lazy_reset_grad"] ∧
      n_output n = [vi_name o +:+ ".accumulation.out"])
    (accumulator_nodes names idx outs) (filter (is_gradient_output names) outs).
Proof.
  revert idx. induction outs as [|o outs IH]; intros idx; simpl; [constructor|].
  rewrite filter_cons. destruct (decide (is_gradient_output names o)); [|apply IH].
  constructor; [done|apply IH].
Qed.

(** C1. [build_gradient_accumulation_graph] appends to the graph nodes one
    [InPlaceAccumulator] node of domain [com.microsoft] for each graph
    output named [arg_grad] for an [arg] of the given set, in the order of
    the outputs, with inputs [arg_grad.accumulation.buffer], [arg_grad],
    [lazy_reset_grad] and the single output [arg_grad.accumulation.out];
    nothing is appended for the other graph outputs. *)
Theorem build_gradient_accumulation_graph_nodes
    (grad_model : ModelProto) (all_args_requiring_gradient_names : gset string) :
  let r := build_gradient_accumulation_graph all_args_requiring_gradient_names grad_model in
  r.1 = Ok () ∧
  ∃ acc_nodes,
    node (graph r.2) = node (graph grad_model) ++ acc_nodes ∧
    Forall2 (λ n o,
        n_op_type n = "InPlaceAccumulator" ∧ n_domain n = "com.microsoft" ∧
        n_input n = [vi_name o +:+ ".accumulation.buffer"; vi_name o; "lazy_reset_grad"] ∧
        n_output n = [vi_name o +:+ ".accumulation.out"])
      acc_nodes
      (filter (λ o, ∃ arg, arg ∈ all_args_requiring_gradient_names ∧
                           vi_name o = arg +:+ "_grad")
         (output (graph grad_model))).
Proof.
  simpl. rewrite build_gradient_accumulation_graph_run. split; [done|].
  eexists. split; [done|]. apply accumulator_nodes_Forall2.
Qed.

(** C4. For each gradient output [g], in the order of the outputs, a graph
    input named [g.accumulation.buffer] with the type (element type and
    shape) of [g] is appended to the graph inputs, and after these buffers
    one more input is appended: [lazy_reset_grad], a BOOL tensor of shape
    [[1]]. *)
Theorem build_gradient_accumulation_graph_inputs
    (grad_model : ModelProto) (all_args_requiring_gradient_names : gset string) :
  let r := build_gradient_accumulation_graph all_args_requiring_gradient_names grad_model in
  r.1 = Ok () ∧
  ∃ buffers,
    input (graph r.2) =
      input (graph grad_model) ++ buffers ++
      [{| vi_name := "lazy_reset_grad";
          vi_type := TensorType BOOL (Some [DimValue 1]);
          vi_doc_string := "" |}] ∧
    Forall2 (λ b g,
        vi_name b = vi_name g +:+ ".accumulation.buffer" ∧ vi_type b = vi_type g)
      buffers
      (filter (λ o, ∃ arg, arg ∈ all_args_requiring_gradient_names ∧
                           vi_name o = arg +:+ "_grad")
         (output (graph grad_model))).
Proof.
  simpl. rewrite build_gradient_accumulation_graph_run. split; [done|].
  eexists. split; [done|].
  apply Forall2_fmap_l, Forall_Forall2_diag, Forall_forall. done.
Qed.

(** C5. After [build_gradient_accumulation_graph] the graph outputs are the
    original ones, position by position: an output that is not a gradient
    is unchanged, a gradient output [g] is replaced by an output named
    [g.accumulation.out] with the type of [g].  The nodes and the inputs
    the graph had are still there, unchanged, at the front of the new lists
    (and the initializers, the opset imports and the version are kept). *)
Theorem build_gradient_accumulation_graph_frame
    (grad_model : ModelProto) (all_args_requiring_gradient_names : gset string) :
  let r := build_gradient_accumulation_graph all_args_requiring_gradient_names grad_model in
  r.1 = Ok () ∧
  Forall2 (λ o' o,
      ((∃ arg, arg ∈ all_args_requiring_gradient_names ∧ vi_name o = arg +:+ "_grad") →
         vi_name o' = vi_name o +:+ ".accumulation.out" ∧ vi_type o' = vi_type o) ∧
      (¬ (∃ arg, arg ∈ all_args_requiring_gradient_names ∧ vi_name o = arg +:+ "_grad") →
         o' = o))
    (output (graph r.2)) (output (graph grad_model)) ∧
  node (graph grad_model) `prefix_of` node (graph r.2) ∧
  input (graph grad_model) `prefix_of` input (graph r.2) ∧
  initializer (graph r.2) = initializer (graph grad_model) ∧
  opset_import r.2 = opset_import grad_model ∧
  ir_version r.2 = ir_version grad_model.
Proof.
  simpl. rewrite build_gradient_accumulation_graph_run. simpl.
  split_and!; try done.
  - apply Forall2_fmap_l, Forall_Forall2_diag, Forall_forall.
    intros o _. unfold compose, accumulation_output.
    case_decide as Hg; (split; [intros Hy|intros Hn]);
      [split; reflexivity|by destruct Hn|by destruct Hg|reflexivity].
  - by eexists.
  - by eexists.
Qed.

(** *** [build_gradient_graph] *)

Lemma M_bind_unfold {S A B} (m : M S A) (f : A → M S B) (s : S) :
  (m ≫= f) s = match m s with
               | (Ok a, s') => f a s'
               | (Raise e, s') => (Raise e, s')
               end.
Proof. reflexivity. Qed.

Lemma str_item_0 s :
  str_item s 0 = match s with
                 | EmptyString => Raise IndexError
                 | String c _ => Ok c
                 end.
Proof. by destruct s. Qed.

Lemma graph_input_extend_nil m : graph_input_extend [] m = m.
Proof.
  destruct m as [? ? []]. unfold graph_input_extend, with_graph; simpl.
  by rewrite app_nil_r.
Qed.

Lemma graph_input_extend_append v vs m :
  graph_input_extend vs (graph_input_append v m) = graph_input_extend (v :: vs) m.
Proof.
  unfold graph_input_extend, graph_input_append, with_graph; simpl.
  by rewrite <- (assoc_L (++)).
Qed.

(** The initializer loop on names that are all non-empty. *)
Lemma initializer_loop_run inits user_args_not_requiring_grad
    (all_args : gset string) initializers (a : Accessor) :
  Forall (λ t, t_name t ≠ "") inits →
  initializer_loop inits user_args_not_requiring_grad all_args initializers a =
  (Ok (all_args ∪ trainable_names user_args_not_requiring_grad inits,
       initializers ++ filter (λ t, begins_with_digit (t_name t)) inits),
   on_model (graph_input_extend
     (initializer_value_info <$> filter (λ t, ¬ begins_with_digit (t_name t)) inits)) a).
Proof.
  intros Hne. revert all_args initializers a.
  induction Hne as [|t inits Ht _ IH]; intros all_args initializers a.
  - simpl. unfold trainable_names, on_model; simpl.
    rewrite graph_input_extend_nil, app_nil_r, (right_id_L ∅ (∪)). by destruct a.
  - cbn [initializer_loop]. unfold mbind at 1, M_bind, lift.
    rewrite str_item_0. unfold trainable_names. rewrite !filter_cons.
    destruct (t_name t) as [|c s] eqn:Hname; [done|]. cbn [begins_with_digit].
    destruct (isdigit c) eqn:Hc; cbn [negb].
    + rewrite (decide_True (P := Is_true true)) by done.
      rewrite (decide_False (P := ¬ true)) by (intros H; by apply H).
      rewrite decide_False by (intros [H _]; by apply H).
      rewrite IH. by rewrite <- (assoc_L (++)).
    + rewrite (decide_False (P := Is_true false)) by (by intros ?).
      rewrite (decide_True (P := ¬ false)) by (by intros ?).
      unfold mbind, M_bind, modify. case_bool_decide as Hin.
      * rewrite decide_False by (intros [_ H]; by apply H).
        rewrite IH. f_equal.
        unfold on_model; cbn [model eval_model]. f_equal.
        rewrite graph_input_extend_append, fmap_cons.
        unfold initializer_value_info. by rewrite Hname.
      * rewrite decide_True by (split; [by intros ?|done]).
        rewrite IH. rewrite fmap_cons, list_to_set_cons.
        f_equal; [f_equal; f_equal; rewrite Hname; set_solver|].
        unfold on_model; cbn [model eval_model]. f_equal.
        rewrite graph_input_extend_append, fmap_cons.
        unfold initializer_value_info. by rewrite Hname.
Qed.

(** The loop raises exactly when it meets an empty name, and then it raises
    [IndexError]. *)
Lemma initializer_loop_result inits user_args_not_requiring_grad
    (all_args : gset string) initializers (a : Accessor) :
  match (initializer_loop inits user_args_not_requiring_grad all_args initializers a).1 with
  | Ok _ => Forall (λ t, t_name t ≠ "") inits
  | Raise e => e = IndexError ∧ Exists (λ t, t_name t = "") inits
  end.
Proof.
  revert all_args initializers a.
  induction inits as [|t inits IH]; intros all_args initializers a; [by constructor|].
  cbn [initializer_loop]. unfold mbind at 1, M_bind, lift. rewrite str_item_0.
  destruct (t_name t) as [|c s] eqn:Hname; [by split; [|left]|].
  assert (∀ r : result (gset string * list TensorProto),
    match r with
    | Ok _ => Forall (λ t, t_name t ≠ "") inits
    | Raise e => e = IndexError ∧ Exists (λ t, t_name t = "") inits
    end →
    match r with
    | Ok _ => Forall (λ t, t_name t ≠ "") (t :: inits)
    | Raise e => e = IndexError ∧ Exists (λ t, t_name t = "") (t :: inits)
    end) as Hstep.
  { intros [?|e]; [by constructor; [rewrite Hname|]|].
    intros [-> ?]. split; [done|by right]. }
  destruct (negb (isdigit c)); [|apply Hstep, IH].
  unfold mbind, M_bind, modify. case_bool_decide; apply Hstep, IH.
Qed.

Lemma foldl_add_names (all_args : gset string) (names : list string) :
  foldl (λ s argument_name, {[argument_name]} ∪ s) all_args names =
  all_args ∪ list_to_set names.
Proof.
  revert all_args. induction names as [|x names IH]; intros all_args; simpl.
  - by rewrite (right_id_L ∅ (∪)).
  - rewrite IH. set_solver.
Qed.

Section GradientGraphFacts.
Variable GradientGraphBuilder :
  ModelProto → gset string → gset string → string → result ModelProto.

(** [build_gradient_graph] on a model whose initializers all have a
    name: the state and the result, by what happens after the loop. *)
Lemma build_gradient_graph_run user_args_requiring_grad user_args_not_requiring_grad
    output_names (a : Accessor) :
  Forall (λ t, t_name t ≠ "") (initializer (graph (model a))) →
  let m1 := eval_model_of (model a) in
  let all_args :=
    trainable_names user_args_not_requiring_grad (initializer (graph (model a)))
    ∪ list_to_set user_args_requiring_grad in
  build_gradient_graph GradientGraphBuilder user_args_requiring_grad
    user_args_not_requiring_grad output_names a =
  match output_name_list output_names with
  | [] => (Raise IndexError, {| model := m1; eval_model := Some m1 |})
  | loss :: _ =>
      match GradientGraphBuilder m1
              (list_to_set (output_name_list output_names)) all_args loss with
      | Ok gradient_model =>
          (Ok all_args,
           {| model := {| ir_version := ir_version (model a);
                          opset_import := opset_import gradient_model;
                          graph := graph gradient_model |};
              eval_model := Some m1 |})
      | Raise e => (Raise e, {| model := m1; eval_model := Some m1 |})
      end
  end.
Proof.
  intros Hne m1 all_args.
  unfold build_gradient_graph. rewrite M_bind_unfold. cbv [get].
  rewrite M_bind_unfold, initializer_loop_run by done.
  unfold mbind, M_bind, modify, lift, mret, M_ret; cbn [model eval_model on_model].
  rewrite foldl_add_names, (left_id_L ∅ (∪)), app_nil_l.
  fold (output_name_list output_names). fold (eval_model_of (model a)). fold m1.
  fold all_args. unfold list_item.
  destruct (output_name_list output_names) as [|loss names]; [done|].
  cbn [lookup list_lookup].
  by destruct (GradientGraphBuilder m1 _ all_args loss).
Qed.

Lemma build_gradient_graph_empty_name user_args_requiring_grad
    user_args_not_requiring_grad output_names (a : Accessor) :
  Exists (λ t, t_name t = "") (initializer (graph (model a))) →
  (build_gradient_graph GradientGraphBuilder user_args_requiring_grad
     user_args_not_requiring_grad output_names a).1 = Raise IndexError.
Proof.
  intros Hex. unfold build_gradient_graph. rewrite M_bind_unfold. cbv [get].
  rewrite M_bind_unfold.
  pose proof (initializer_loop_result (initializer (graph (model a)))
    user_args_not_requiring_grad ∅ [] a) as Hloop.
  destruct (initializer_loop _ _ _ _ a) as [[[]|e] a']; simpl in *.
  - exfalso. revert Hex. apply Forall_not_Exists.
    eapply Forall_impl; [exact Hloop|done].
  - by destruct Hloop as [-> _].
Qed.

(** C2 (amended). When every initializer of the model has a non-empty
    name, [build_gradient_graph] removes from the initializers those whose
    name does not begin with a digit, keeps the others, and appends for
    each removed one, in order, a graph input with its name, data type
    and dims.  The model in this state is the one stored as
    [accessor.eval_model] and handed to the gradient builder; when the
    builder succeeds its graph replaces the graph of [accessor.model],
    when a later step raises [accessor.model] stays in this state. *)
Theorem build_gradient_graph_moves_initializers user_args_requiring_grad
    user_args_not_requiring_grad output_names (accessor : Accessor) :
  Forall (λ t, t_name t ≠ "") (initializer (graph (model accessor))) →
  let r := build_gradient_graph GradientGraphBuilder user_args_requiring_grad
             user_args_not_requiring_grad output_names accessor in
  let inits := initializer (graph (model accessor)) in
  ∃ m1,
    eval_model r.2 = Some m1 ∧
    initializer (graph m1) = filter (λ t, begins_with_digit (t_name t)) inits ∧
    (∃ new_inputs,
       input (graph m1) = input (graph (model accessor)) ++ new_inputs ∧
       Forall2 (λ v t,
           vi_name v = t_name t ∧
           vi_type v = TensorType (t_data_type t) (Some (DimValue <$> t_dims t)))
         new_inputs (filter (λ t, ¬ begins_with_digit (t_name t)) inits)) ∧
    (∀ e, r.1 = Raise e → model r.2 = m1) ∧
    (∀ s, r.1 = Ok s →
       ∃ loss gradient_model,
         GradientGraphBuilder m1 (list_to_set (output_name_list output_names)) s loss
           = Ok gradient_model ∧
         graph (model r.2) = graph gradient_model).
Proof.
  intros Hne r inits. subst r.
  rewrite build_gradient_graph_run by done.
  exists (eval_model_of (model accessor)).
  assert (∃ new_inputs,
    input (graph (eval_model_of (model accessor))) =
      input (graph (model accessor)) ++ new_inputs ∧
    Forall2 (λ v t,
        vi_name v = t_name t ∧
        vi_type v = TensorType (t_data_type t) (Some (DimValue <$> t_dims t)))
      new_inputs (filter (λ t, ¬ begins_with_digit (t_name t)) inits)) as Hin.
  { eexists. split; [done|].
    apply Forall2_fmap_l, Forall_Forall2_diag, Forall_forall. done. }
  destruct (output_name_list output_names) as [|loss names] eqn:Hnames.
  { split_and!; [done..|]. intros s [=]. }
  destruct (GradientGraphBuilder _ _ _ loss) as [gm|e] eqn:Hb.
  - split_and!; [done..|]. intros s [= <-]. by exists loss, gm.
  - split_and!; [done..|]. intros s [=].
Qed.

(** C3 (amended). Whenever [build_gradient_graph] returns, it returns
    exactly the set of (i) the names of the initializers of the input
    model that do not begin with a digit and are not in
    [user_args_not_requiring_grad], and (ii) the names in
    [user_args_requiring_grad].  It does not return only when it raises
    [IndexError], on an initializer with an empty name or on an empty
    list of output names, or when the gradient builder raises. *)
Theorem build_gradient_graph_returns_names user_args_requiring_grad
    user_args_not_requiring_grad output_names (accessor : Accessor) :
  let r := build_gradient_graph GradientGraphBuilder user_args_requiring_grad
             user_args_not_requiring_grad output_names accessor in
  let inits := initializer (graph (model accessor)) in
  (∀ s, r.1 = Ok s →
     ∀ x, x ∈ s ↔
          (∃ t, t ∈ inits ∧ t_name t = x ∧ ¬ begins_with_digit x ∧
                x ∉ user_args_not_requiring_grad) ∨
          x ∈ user_args_requiring_grad) ∧
  (∀ e, r.1 = Raise e →
     (e = IndexError ∧
      (Exists (λ t, t_name t = "") inits ∨ output_names = NameList [])) ∨
     (∃ m o s l, GradientGraphBuilder m o s l = Raise e)).
Proof.
  intros r inits. subst r.
  destruct (Forall_Exists_dec (λ t, t_name t ≠ "") (λ t, t_name t = "")
    (λ t, match decide (t_name t = "") with
          | left H => right H
          | right H => left H
          end) inits) as [Hne|Hex].
  - rewrite build_gradient_graph_run by done.
    assert (∀ x, x ∈ trainable_names user_args_not_requiring_grad inits
                     ∪ list_to_set user_args_requiring_grad ↔
                 (∃ t, t ∈ inits ∧ t_name t = x ∧ ¬ begins_with_digit x ∧
                       x ∉ user_args_not_requiring_grad) ∨
                 x ∈ user_args_requiring_grad) as Hset.
    { intros x. unfold trainable_names.
      rewrite elem_of_union, !elem_of_list_to_set, list_elem_of_fmap.
      apply or_iff_compat_r. split.
      - intros (t & -> & (Ht1 & Ht2)%list_elem_of_filter). exists t. tauto.
      - intros (t & Ht & <- & Hd & Hn). exists t. split; [done|].
        apply list_elem_of_filter. tauto. }
    destruct (output_name_list output_names) as [|loss names] eqn:Hnames.
    { split; [intros s [=]|]. intros e [= <-]. left. split; [done|right].
      destruct output_names; simplify_eq/=. done. }
    destruct (GradientGraphBuilder _ _ _ loss) as [gm|e] eqn:Hb.
    + split; [|intros e [=]]. intros s [= <-]. apply Hset.
    + split; [intros s [=]|]. intros e' [= <-]. right. eauto.
  - rewrite build_gradient_graph_empty_name by done.
    split; [intros s [=]|]. intros e [= <-]. left. auto.
Qed.
End GradientGraphFacts.

(** *** [get_model_parameters] and [generate_random_graph_name] *)

Lemma parameters_loop_run inits args trainable_params non_trainable_params :
  Forall (λ t, t_name t ≠ "") inits →
  parameters_loop inits args trainable_params non_trainable_params =
  Ok (trainable_params ++
        filter (λ t, ¬ begins_with_digit (t_name t) ∧ t_name t ∉ args) inits,
      non_trainable_params ++
        filter (λ t, ¬ begins_with_digit (t_name t) ∧ t_name t ∈ args) inits).
Proof.
  intros Hne. revert trainable_params non_trainable_params.
  induction Hne as [|t inits Ht _ IH]; intros trainable_params non_trainable_params.
  - simpl. by rewrite !app_nil_r.
  - cbn [parameters_loop]. rewrite str_item_0, !filter_cons.
    destruct (t_name t) as [|c s] eqn:Hname; [done|].
    cbn [mbind result_bind begins_with_digit].
    destruct (isdigit c); cbn [negb].
    + rewrite !decide_False by (intros [H _]; by apply H). apply IH.
    + case_bool_decide as Hin.
      * rewrite decide_False by (intros [_ H]; by apply H).
        rewrite decide_True by (split; [by intros ?|done]).
        rewrite IH. by rewrite <- (assoc_L (++)).
      * rewrite decide_True by (split; [by intros ?|done]).
        rewrite decide_False by (intros [_ H]; by apply Hin).
        rewrite IH. by rewrite <- (assoc_L (++)).
Qed.

Lemma parameters_loop_result inits args trainable_params non_trainable_params :
  match parameters_loop inits args trainable_params non_trainable_params with
  | Ok _ => Forall (λ t, t_name t ≠ "") inits
  | Raise e => e = IndexError ∧ Exists (λ t, t_name t = "") inits
  end.
Proof.
  revert trainable_params non_trainable_params.
  induction inits as [|t inits IH]; intros trainable_params non_trainable_params;
    [by constructor|].
  cbn [parameters_loop]. rewrite str_item_0.
  destruct (t_name t) as [|c s] eqn:Hname; [by split; [|left]|].
  cbn [mbind result_bind].
  assert (∀ r : result (list TensorProto * list TensorProto),
    match r with
    | Ok _ => Forall (λ t, t_name t ≠ "") inits
    | Raise e => e = IndexError ∧ Exists (λ t, t_name t = "") inits
    end →
    match r with
    | Ok _ => Forall (λ t, t_name t ≠ "") (t :: inits)
    | Raise e => e = IndexError ∧ Exists (λ t, t_name t = "") (t :: inits)
    end) as Hstep.
  { intros [?|e]; [by constructor; [rewrite Hname|]|].
    intros [-> ?]. split; [done|by right]. }
  destruct (negb (isdigit c)); [|apply Hstep, IH].
  case_bool_decide; apply Hstep, IH.
Qed.

(** The decimal text of a non-negative integer begins with an ASCII digit. *)
Lemma str_of_int_begins_with_digit n :
  0 ≤ n → ∃ c s, str_of_int n = String c s ∧ isdigit c = true.
Proof.
  intros Hn. unfold str_of_int.
  destruct n as [|p|p]; [by eexists _, _| |lia].
  cbn [Z.to_int NilZero.string_of_int].
  destruct (Pos.to_uint p); by eexists _, _.
Qed.

(** [get_model_parameters] returns unless an initializer has an empty
    name; the two lists are the initializers whose name does not begin with
    a digit, split by membership of the name in
    [args_not_requiring_gradient]. *)
Lemma get_model_parameters_spec (model : ModelProto) (args : list string) :
  let inits := initializer (graph model) in
  (Forall (λ t, t_name t ≠ "") inits →
     ∃ trainable non_trainable,
       get_model_parameters model args = Ok (trainable, non_trainable)) ∧
  (∀ e, get_model_parameters model args = Raise e →
     e = IndexError ∧ Exists (λ t, t_name t = "") inits) ∧
  (∀ trainable non_trainable,
     get_model_parameters model args = Ok (trainable, non_trainable) →
     trainable = filter (λ t, ¬ begins_with_digit (t_name t) ∧ t_name t ∉ args) inits ∧
     non_trainable = filter (λ t, ¬ begins_with_digit (t_name t) ∧ t_name t ∈ args) inits).
Proof.
  intros inits. unfold get_model_parameters. fold inits.
  pose proof (parameters_loop_result inits args [] []) as Hres.
  split_and!.
  - intros Hne. rewrite parameters_loop_run by done. eauto.
  - intros e He. by rewrite He in Hres.
  - intros trainable non_trainable Hok. rewrite Hok in Hres.
    rewrite parameters_loop_run in Hok by done. by simplify_eq/=.
Qed.

Section RandomNameFacts.
Variable rng : Type.
Variable randint : Z → Z → M rng Z.

(** [random.randint(a, b)] returns an integer [n] with [a <= n <= b]. *)
Hypothesis randint_range :
  ∀ a b s, a ≤ b → ∃ n s', randint a b s = (Ok n, s') ∧ a ≤ n ≤ b.

(** C10 (amended). [generate_random_graph_name] returns [n.token] for an
    integer [0 <= n <= 1000], a name that begins with a digit.  On a model
    whose initializers all have a non-empty name [get_model_parameters]
    returns two lists, and whenever it returns it has put an initializer
    in one of the two lists exactly when its name does not begin with a
    digit, in the first one when the name is not in
    [args_not_requiring_gradient] and in the second one when it is; so an
    initializer with a generated name is in neither list. *)
Theorem generate_random_graph_name_not_parameter (token : string) (s : rng) :
  ∃ n s',
    generate_random_graph_name rng randint token s =
      (Ok (str_of_int n +:+ "." +:+ token), s') ∧
    0 ≤ n ≤ 1000 ∧
    begins_with_digit (str_of_int n +:+ "." +:+ token) ∧
    ∀ (model : ModelProto) (args_not_requiring_gradient : list string),
      (Forall (λ t, t_name t ≠ "") (initializer (graph model)) →
       ∃ trainable non_trainable,
         get_model_parameters model args_not_requiring_gradient =
           Ok (trainable, non_trainable)) ∧
      ∀ trainable non_trainable,
        get_model_parameters model args_not_requiring_gradient =
          Ok (trainable, non_trainable) →
        (∀ t, t ∈ initializer (graph model) →
           ((t ∈ trainable ∨ t ∈ non_trainable) ↔ ¬ begins_with_digit (t_name t)) ∧
           (t ∈ trainable ↔
              ¬ begins_with_digit (t_name t) ∧ t_name t ∉ args_not_requiring_gradient) ∧
           (t ∈ non_trainable ↔
              ¬ begins_with_digit (t_name t) ∧ t_name t ∈ args_not_requiring_gradient)) ∧
        (∀ t, t_name t = str_of_int n +:+ "." +:+ token →
           (t ∉ trainable) ∧ (t ∉ non_trainable)).
Proof.
  destruct (randint_range 0 1000 s) as (n & s' & Hr & Hn); [lia|].
  exists n, s'.
  assert (begins_with_digit (str_of_int n +:+ "." +:+ token)) as Hdigit.
  { destruct (str_of_int_begins_with_digit n) as (c & d & -> & Hc); [lia|].
    simpl. by rewrite Hc. }
  split_and!; [|lia|lia|done|].
  { unfold generate_random_graph_name, get_random_number.
    rewrite M_bind_unfold, Hr. done. }
  intros model args.
  destruct (get_model_parameters_spec model args) as (Htotal & _ & Hlists).
  split; [exact Htotal|].
  intros trainable non_trainable Hok.
  destruct (Hlists _ _ Hok) as [-> ->]. split.
  - intros t Ht. rewrite !list_elem_of_filter.
    destruct (decide (t_name t ∈ args)); tauto.
  - intros t Hname. rewrite !list_elem_of_filter, Hname. tauto.
Qed.
End RandomNameFacts.

(** ** Properties of [model_runner.py] *)

Lemma slice_from_nonneg {A} (n : Z) (l : list A) :
  0 ≤ n → slice_from n l = drop (Z.to_nat n) l.
Proof. intros Hn. unfold slice_from. by rewrite (proj2 (Z.ltb_ge n 0)). Qed.

Lemma truncate_at_eos_cons eos t toks :
  truncate_at_eos eos (t :: toks) =
  if decide (t = eos) then [] else t :: truncate_at_eos eos toks.
Proof.
  unfold truncate_at_eos. cbn [list_find]. case_decide; [done|].
  by destruct (list_find (λ t0, t0 = eos) toks) as [[k x]|].
Qed.

Lemma list_item_middle {A} (l1 l2 : list A) x :
  list_item (l1 ++ x :: l2) (length l1) = Ok x.
Proof. unfold list_item. by rewrite list_lookup_middle. Qed.

(** [rstrip] cuts a suffix of whitespace and what it keeps does not end in
    whitespace. *)
Lemma rstrip_spec (s : string) :
  ∃ ws, s = rstrip s +:+ ws ∧
    Forall (λ c, isspace c) (list_ascii_of_string ws) ∧
    ∀ s' c, rstrip s = s' +:+ String c "" → isspace c = false.
Proof.
  induction s as [|a s (ws & Hs & Hws & Hlast)].
  - exists "". split_and!; [done|constructor|]. by intros [|??] c.
  - cbn [rstrip]. destruct (rstrip s) as [|b r] eqn:Hr.
    + destruct (isspace a) eqn:Ha.
      * exists (String a ws). simpl in Hs. subst s. split_and!; [done| |by intros [|??] c].
        simpl. constructor; [by rewrite Ha|done].
      * exists ws. simpl in Hs. subst s. split_and!; [done..|].
        intros [|a' [|??]] c [=]; by subst.
    + exists ws. split_and!; [simpl; by rewrite Hs|done|].
      intros [|a' s'] c [=]; subst. by apply (Hlast s').
Qed.

Lemma rstrip_all_space (ws : string) :
  Forall (λ c, isspace c) (list_ascii_of_string ws) → rstrip ws = "".
Proof.
  induction ws as [|a ws IH]; [done|]. simpl. intros [Ha Hws]%Forall_cons.
  rewrite IH by done. by destruct (isspace a).
Qed.

(** The stripped string is determined: it is the only prefix that leaves a
    suffix of whitespace and does not end in whitespace itself. *)
Lemma rstrip_unique (text ws : string) :
  Forall (λ c, isspace c) (list_ascii_of_string ws) →
  (∀ s' c, text = s' +:+ String c "" → isspace c = false) →
  rstrip (text +:+ ws) = text.
Proof.
  intros Hws. induction text as [|a text IH]; intros Hlast.
  - by apply rstrip_all_space.
  - change (String a text +:+ ws) with (String a (text +:+ ws)). cbn [rstrip].
    destruct text as [|b text'].
    + change ("" +:+ ws) with ws. rewrite rstrip_all_space by done.
      by rewrite (Hlast "" a eq_refl).
    + rewrite IH; [done|]. intros s' c Hs'. apply (Hlast (String a s') c).
      by rewrite Hs'.
Qed.

Section ProcessResultsFacts.
Variable prob : Type.
Variable negative : prob → bool.
Variable tokenizer : Tokenizer.

(** The scan for [eos], started after a prefix without [eos]. *)
Lemma eos_loop_spec (suf pre : list Z) :
  Forall (λ t, t ≠ eos_token_id tokenizer) pre →
  eos_loop tokenizer (pre ++ suf) (seq (length pre) (length suf)) =
  Ok (pre ++ truncate_at_eos (eos_token_id tokenizer) suf).
Proof.
  revert pre. induction suf as [|t suf IH]; intros pre Hpre; [done|].
  cbn [length seq eos_loop]. rewrite list_item_middle. cbn [mbind result_bind].
  rewrite truncate_at_eos_cons. case_bool_decide as Ht.
  - rewrite decide_True by done. by rewrite take_app_length, app_nil_r.
  - rewrite decide_False by done.
    replace (pre ++ t :: suf) with ((pre ++ [t]) ++ suf) by by rewrite <- (assoc_L (++)).
    replace (S (length pre)) with (length (pre ++ [t])) by (rewrite length_app; simpl; lia).
    rewrite IH; [by rewrite <- (assoc_L (++))|].
    apply Forall_app. split; [done|by constructor].
Qed.

(** The scan of lines 32 to 35 and the slice of line 37 never raise: the
    text of a candidate is what [tokenizer.decode] gives, stripped, or the
    error it raises. *)
Lemma candidate_text_eq (last_complete_word_position : Z) (output_ij : list Z) :
  candidate_text tokenizer last_complete_word_position output_ij =
  (decoded ← decode tokenizer
     (slice_from last_complete_word_position
        (truncate_at_eos (eos_token_id tokenizer) output_ij));
   Ok (rstrip decoded)).
Proof.
  unfold candidate_text.
  pose proof (eos_loop_spec output_ij [] (Forall_nil_2 _)) as Hloop.
  simpl in Hloop. by rewrite Hloop.
Qed.

Lemma candidate_text_suggestion (last_complete_word_position : Z) (output_ij : list Z) :
  0 ≤ last_complete_word_position →
  candidate_text tokenizer last_complete_word_position output_ij =
  suggestion_text tokenizer last_complete_word_position output_ij.
Proof.
  intros Hn. rewrite candidate_text_eq. unfold suggestion_text.
  by rewrite slice_from_nonneg.
Qed.

Variable output_probs : list (list prob).
Variable last_complete_word_position : Z.

Abbreviation candidates_loop' :=
  (candidates_loop prob negative tokenizer output_probs last_complete_word_position).
Abbreviation candidate_text' := (candidate_text tokenizer last_complete_word_position).

(** One iteration of the loop over the candidates, read backwards from a
    normal return: either the loop stopped at this candidate, or the
    candidate was processed and the loop went on. *)
Lemma candidates_loop_cons_Ok i j c rest returns_i probs_i r pr :
  candidates_loop' i j (c :: rest) returns_i probs_i = Ok (r, pr) →
  (returns_i ≠ [] ∧
   (∃ p, probs_item prob output_probs i j = Ok p ∧ negative p = true) ∧
   r = returns_i ∧ pr = probs_i) ∨
  ((returns_i = [] ∨ ∃ p, probs_item prob output_probs i j = Ok p ∧ negative p = false) ∧
   ∃ text, candidate_text' c = Ok text ∧
     (((text ∉ returns_i) ∧
       ∃ p, probs_item prob output_probs i j = Ok p ∧
            candidates_loop' i (S j) rest (returns_i ++ [text]) (probs_i ++ [p]) = Ok (r, pr)) ∨
      (text ∈ returns_i ∧ candidates_loop' i (S j) rest returns_i probs_i = Ok (r, pr)))).
Proof.
  cbn [candidates_loop].
  assert (∀ res : result string, candidate_text' c = res →
          (res ≫= λ output_text,
             if bool_decide (output_text ∉ returns_i)
             then probs_item prob output_probs i j ≫= λ p,
                    candidates_loop' i (S j) rest (returns_i ++ [output_text]) (probs_i ++ [p])
             else candidates_loop' i (S j) rest returns_i probs_i) = Ok (r, pr) →
          ∃ text0, res = Ok text0 ∧
            (((text0 ∉ returns_i) ∧
              ∃ p, probs_item prob output_probs i j = Ok p ∧
                   candidates_loop' i (S j) rest (returns_i ++ [text0]) (probs_i ++ [p])
                     = Ok (r, pr)) ∨
             (text0 ∈ returns_i ∧ candidates_loop' i (S j) rest returns_i probs_i = Ok (r, pr))))
    as Hbody.
  { intros [text|e] _; cbn [mbind result_bind]; [|done]. intros H.
    exists text. split; [done|].
    case_bool_decide as Hin.
    - left. split; [done|].
      destruct (probs_item prob output_probs i j) as [p|e]; [|done]. by exists p.
    - right. by split. }
  destruct returns_i as [|x returns_i'].
  - cbn [mbind result_bind]. intros H. right. split; [by left|].
    by apply (Hbody _ eq_refl).
  - destruct (probs_item prob output_probs i j) as [p|e] eqn:Hp; [|done].
    cbn [mbind result_bind].
    destruct (negative p) eqn:Hneg.
    + intros [= <- <-]. left. split_and!; [done| |done..]. by exists p.
    + intros H. right. split; [right; by exists p|].
      by apply (Hbody _ eq_refl).
Qed.

(** The loop only appends: the lists it got are prefixes of the lists it
    returns, which stay of equal length and without duplicates. *)
Lemma candidates_loop_inv output_i i j returns_i probs_i r pr :
  candidates_loop' i j output_i returns_i probs_i = Ok (r, pr) →
  length returns_i = length probs_i → NoDup returns_i →
  length r = length pr ∧ NoDup r ∧ returns_i `prefix_of` r.
Proof.
  revert j returns_i probs_i.
  induction output_i as [|c rest IH]; intros j returns_i probs_i Hok Hlen Hnd.
  - by simplify_eq/=.
  - apply candidates_loop_cons_Ok in Hok
      as [(_ & _ & -> & ->)|(_ & text & _ & [(Hin & p & _ & Hok)|(Hin & Hok)])].
    + done.
    + apply IH in Hok as (? & ? & Hpre).
      * split_and!; [done..|]. etrans; [|exact Hpre]. by apply prefix_app_r.
      * rewrite !length_app. simpl. lia.
      * apply NoDup_app. split_and!; [done| |apply NoDup_singleton].
        intros x Hx ->%list_elem_of_singleton. done.
    + by apply IH in Hok.
Qed.

(** Every text the loop returns was there before or is the text of one of
    the candidates. *)
Lemma candidates_loop_origin output_i i j returns_i probs_i r pr :
  candidates_loop' i j output_i returns_i probs_i = Ok (r, pr) →
  ∀ s, s ∈ r → s ∈ returns_i ∨ ∃ c, c ∈ output_i ∧ candidate_text' c = Ok s.
Proof.
  revert j returns_i probs_i.
  induction output_i as [|c rest IH]; intros j returns_i probs_i Hok s Hs.
  - simplify_eq/=. by left.
  - apply candidates_loop_cons_Ok in Hok
      as [(_ & _ & -> & ->)|(_ & text & Htext & [(Hin & p & _ & Hok)|(Hin & Hok)])].
    + by left.
    + destruct (IH _ _ _ Hok s Hs) as [[?| ->%list_elem_of_singleton]%elem_of_app|(c' & ? & ?)].
      * by left.
      * right. exists c. split; [left|done].
      * right. exists c'. split; [by right|done].
    + destruct (IH _ _ _ Hok s Hs) as [?|(c' & ? & ?)]; [by left|].
      right. exists c'. split; [by right|done].
Qed.

(** The loop stops at a candidate of negative probability once a text has
    been collected: what it returns then comes from the candidates before
    that one, all of which were processed. *)
Lemma candidates_loop_stop pre i j returns_i probs_i c post p r pr :
  candidates_loop' i j (pre ++ c :: post) returns_i probs_i = Ok (r, pr) →
  probs_item prob output_probs i (j + length pre) = Ok p →
  negative p = true →
  returns_i ≠ [] ∨ pre ≠ [] →
  (∀ k p', (k < length pre)%nat → returns_i ≠ [] ∨ (0 < k)%nat →
     probs_item prob output_probs i (j + k) = Ok p' → negative p' = false) →
  ∀ s, s ∈ r ↔ s ∈ returns_i ∨ ∃ c', c' ∈ pre ∧ candidate_text' c' = Ok s.
Proof.
  revert j returns_i probs_i.
  induction pre as [|c0 pre IH]; intros j returns_i probs_i Hok Hp Hneg Hne Hpre s.
  - simpl in Hok, Hp. rewrite Nat.add_0_r in Hp.
    apply candidates_loop_cons_Ok in Hok as [(_ & _ & -> & _)|([->|(p' & Hp' & Hn')] & _)].
    + split; [by left|]. intros [?|(c' & Hc' & _)]; [done|inversion Hc'].
    + by destruct Hne.
    + congruence.
  - cbn [app length] in Hok, Hp.
    assert (∀ R' : list string, R' ≠ [] →
      ∀ k p', (k < length pre)%nat → R' ≠ [] ∨ (0 < k)%nat →
        probs_item prob output_probs i (S j + k) = Ok p' → negative p' = false) as Hpre'.
    { intros R' _ k p' Hk _ Hp'. apply (Hpre (S k) p'); [simpl; lia|right; lia|].
      by rewrite Nat.add_succ_r. }
    rewrite Nat.add_succ_r in Hp.
    apply candidates_loop_cons_Ok in Hok
      as [(Hr & (p' & Hp' & Hn') & _)
         |(_ & text & Htext & [(Hin & p' & _ & Hok)|(Hin & Hok)])].
    + rewrite (Hpre 0%nat p') in Hn'; [done|simpl; lia|by left|by rewrite Nat.add_0_r].
    + rewrite (IH (S j) _ _ Hok Hp Hneg); [|left; by destruct returns_i|by apply Hpre'; destruct returns_i].
      rewrite elem_of_app, list_elem_of_singleton. split.
      * intros [[?| ->]|(c' & ? & ?)]; [by left|right..].
        -- exists c0. split; [left|done].
        -- exists c'. split; [by right|done].
      * intros [?|(c' & [->|?]%elem_of_cons & Hc')]; [by left; left| |right; by exists c'].
        left; right. congruence.
    + assert (returns_i ≠ []) as Hr by (intros ->; inversion Hin).
      rewrite (IH (S j) _ _ Hok Hp Hneg); [|by left|by apply Hpre'].
      split.
      * intros [?|(c' & ? & ?)]; [by left|]. right. exists c'. split; [by right|done].
      * intros [?|(c' & [->|?]%elem_of_cons & Hc')]; [by left| |right; by exists c'].
        left. congruence.
Qed.

(** The first candidate of a row is always processed: its text is the first
    one returned. *)
Lemma candidates_loop_first i c rest r pr :
  candidates_loop' i 0 (c :: rest) [] [] = Ok (r, pr) →
  ∃ s, candidate_text' c = Ok s ∧ head r = Some s.
Proof.
  intros Hok.
  apply candidates_loop_cons_Ok in Hok
    as [(Hr & _)|(_ & text & Htext & [(_ & p & _ & Hok)|(Hin & _)])].
  - done.
  - exists text. split; [done|].
    apply candidates_loop_inv in Hok as (_ & _ & [k ->]); [done..|].
    apply NoDup_singleton.
  - inversion Hin.
Qed.

Abbreviation rows_loop' :=
  (rows_loop prob negative tokenizer output_probs last_complete_word_position).

(** The loop over the rows runs the loop over the candidates once per row,
    from empty lists, and appends what it returns. *)
Lemma rows_loop_Ok output_ids i returns returns_probs rets rps :
  rows_loop' i output_ids returns returns_probs = Ok (rets, rps) →
  ∃ rs ps,
    rets = returns ++ rs ∧ rps = returns_probs ++ ps ∧
    length rs = length output_ids ∧ length ps = length output_ids ∧
    ∀ k output_i, output_ids !! k = Some output_i →
      ∃ r pr, candidates_loop' (i + k) 0 output_i [] [] = Ok (r, pr) ∧
              rs !! k = Some r ∧ ps !! k = Some pr.
Proof.
  revert i returns returns_probs.
  induction output_ids as [|output_i rest IH]; intros i returns returns_probs Hok.
  - simplify_eq/=. exists [], []. rewrite !app_nil_r. split_and!; [done..|].
    intros k ? Hk. inversion Hk.
  - cbn [rows_loop] in Hok.
    destruct (candidates_loop' i 0 output_i [] []) as [[r pr]|e] eqn:Hrow; [|done].
    cbn [mbind result_bind] in Hok.
    apply IH in Hok as (rs & ps & -> & -> & Hlr & Hlp & Hrows).
    exists (r :: rs), (pr :: ps). rewrite <- !(assoc_L (++)).
    split_and!; [done|done|simpl; lia|simpl; lia|].
    intros [|k] output_i' Hk; simplify_eq/=.
    + rewrite Nat.add_0_r. eauto.
    + rewrite Nat.add_succ_r. by apply Hrows.
Qed.

(** The loops return when [tokenizer.decode] returns and [output_probs]
    has an entry for every candidate. *)
Lemma candidates_loop_returns output_i i j returns_i probs_i :
  (∀ toks, ∃ decoded, decode tokenizer toks = Ok decoded) →
  (∀ k, (k < length output_i)%nat →
     ∃ p, probs_item prob output_probs i (j + k) = Ok p) →
  ∃ r pr, candidates_loop' i j output_i returns_i probs_i = Ok (r, pr).
Proof.
  intros Hdecode. revert j returns_i probs_i.
  induction output_i as [|c rest IH]; intros j returns_i probs_i Hp; [by eexists _, _|].
  cbn [candidates_loop]. rewrite candidate_text_eq.
  destruct (Hdecode (slice_from last_complete_word_position
              (truncate_at_eos (eos_token_id tokenizer) c))) as [decoded ->].
  cbn [mbind result_bind].
  destruct (Hp 0%nat) as [p Hp0]; [simpl; lia|]. rewrite Nat.add_0_r in Hp0.
  assert (∀ R P, ∃ r pr, candidates_loop' i (S j) rest R P = Ok (r, pr)) as Hrest.
  { intros R P. apply IH. intros k Hk. rewrite Nat.add_succ_l, <- Nat.add_succ_r.
    apply Hp. simpl. lia. }
  rewrite Hp0. cbn [mbind result_bind].
  destruct returns_i as [|x returns_i']; cbn [mbind result_bind].
  - case_bool_decide; apply Hrest.
  - destruct (negative p); [by eexists _, _|]. case_bool_decide; apply Hrest.
Qed.

Lemma rows_loop_returns output_ids i returns returns_probs :
  (∀ toks, ∃ decoded, decode tokenizer toks = Ok decoded) →
  (∀ k output_i j, output_ids !! k = Some output_i → (j < length output_i)%nat →
     ∃ p, probs_item prob output_probs (i + k) j = Ok p) →
  ∃ rets rps, rows_loop' i output_ids returns returns_probs = Ok (rets, rps).
Proof.
  intros Hdecode. revert i returns returns_probs.
  induction output_ids as [|output_i rest IH]; intros i returns returns_probs Hp;
    [by eexists _, _|].
  cbn [rows_loop].
  destruct (candidates_loop_returns output_i i 0 [] [] Hdecode) as (r & pr & ->).
  { intros k Hk. apply (Hp 0%nat output_i k) in Hk; [|done].
    by rewrite Nat.add_0_r in Hk. }
  cbn [mbind result_bind]. apply IH. intros k output_i' j Hk Hj.
  rewrite Nat.add_succ_l, <- Nat.add_succ_r. by apply (Hp (S k) output_i' j).
Qed.

(** [process_results] returns when [tokenizer.decode] returns and
    [output_probs[i, j]] exists for every candidate [j] of every row [i]. *)
Lemma process_results_returns output_ids :
  (∀ toks, ∃ decoded, decode tokenizer toks = Ok decoded) →
  (∀ i output_i j, expand_ids output_ids !! i = Some output_i →
     (j < length output_i)%nat → ∃ p, probs_item prob output_probs i j = Ok p) →
  ∃ rets rps,
    process_results negative output_ids output_probs tokenizer
      last_complete_word_position = Ok (rets, rps).
Proof. intros Hdecode Hp. unfold process_results. by apply rows_loop_returns. Qed.

(** What [process_results] returns for each row. *)
Lemma process_results_rows output_ids rets rps :
  process_results negative output_ids output_probs tokenizer
    last_complete_word_position = Ok (rets, rps) →
  length rets = length (expand_ids output_ids) ∧
  length rps = length (expand_ids output_ids) ∧
  ∀ i output_i, expand_ids output_ids !! i = Some output_i →
    ∃ r pr, candidates_loop' i 0 output_i [] [] = Ok (r, pr) ∧
            rets !! i = Some r ∧ rps !! i = Some pr.
Proof.
  unfold process_results. intros Hok.
  apply rows_loop_Ok in Hok as (rs & ps & -> & -> & Hlr & Hlp & Hrows).
  rewrite !app_nil_l. split_and!; [done..|].
  intros i output_i Hi. by apply Hrows in Hi.
Qed.

(** C9. The two lists [process_results] returns have the same length (one
    entry per row), the suggestions and the probabilities of a row are
    lists of the same length, and the suggestions of a row are pairwise
    distinct. *)
Theorem process_results_lists output_ids rets rps :
  process_results negative output_ids output_probs tokenizer
    last_complete_word_position = Ok (rets, rps) →
  length rets = length rps ∧
  Forall2 (λ returns_i probs_i, length returns_i = length probs_i) rets rps ∧
  Forall NoDup rets.
Proof.
  intros (Hlr & Hlp & Hrows)%process_results_rows.
  assert (∀ i returns_i, rets !! i = Some returns_i →
    ∃ probs_i, rps !! i = Some probs_i ∧
      length returns_i = length probs_i ∧ NoDup returns_i) as Hrow.
  { intros i returns_i Hi.
    destruct (lookup_lt_is_Some_2 (expand_ids output_ids) i) as [output_i Ho].
    { rewrite <- Hlr. by eapply lookup_lt_Some. }
    destruct (Hrows i output_i Ho) as (r & pr & Hloop & Hr & Hpr).
    simplify_eq. exists pr. split; [done|].
    apply candidates_loop_inv in Hloop as (? & ? & _); [done..|constructor]. }
  split_and!.
  - congruence.
  - apply Forall2_same_length_lookup. split; [congruence|].
    intros i returns_i probs_i Hr Hp.
    destruct (Hrow i returns_i Hr) as (probs_i' & ? & ? & _). by simplify_eq.
  - apply Forall_lookup. intros i returns_i Hr.
    by destruct (Hrow i returns_i Hr) as (_ & _ & _ & ?).
Qed.

(** C6 (amended). For a [last_complete_word_position] that is not
    negative, the text of a candidate is obtained from its token list by
    cutting it at the first [eos_token_id] (keeping the tokens before it),
    dropping the first [last_complete_word_position] tokens of what is
    left, decoding, and removing the trailing whitespace: the text is what
    is left of the decoded string when its longest suffix of whitespace is
    cut off.  Every suggestion returned for a row is the text of a
    candidate of that row. *)
Theorem process_results_suggestion_text output_ids rets rps :
  0 ≤ last_complete_word_position →
  process_results negative output_ids output_probs tokenizer
    last_complete_word_position = Ok (rets, rps) →
  (∀ output_ij text,
     candidate_text tokenizer last_complete_word_position output_ij = Ok text ↔
     ∃ decoded ws,
       decode tokenizer
         (drop (Z.to_nat last_complete_word_position)
            (truncate_at_eos (eos_token_id tokenizer) output_ij)) = Ok decoded ∧
       decoded = text +:+ ws ∧
       Forall (λ c, isspace c) (list_ascii_of_string ws) ∧
       ∀ s' c, text = s' +:+ String c "" → isspace c = false) ∧
  ∀ i returns_i, rets !! i = Some returns_i →
    ∃ output_i, expand_ids output_ids !! i = Some output_i ∧
      ∀ s, s ∈ returns_i →
        ∃ output_ij, output_ij ∈ output_i ∧
          candidate_text tokenizer last_complete_word_position output_ij = Ok s.
Proof.
  intros Hpos (Hlr & Hlp & Hrows)%process_results_rows. split.
  - intros output_ij text. rewrite candidate_text_eq, slice_from_nonneg by done.
    destruct (decode tokenizer _) as [decoded|e]; cbn [mbind result_bind].
    + split.
      * intros [= <-]. destruct (rstrip_spec decoded) as (ws & Hd & Hws & Hlast).
        by exists decoded, ws.
      * intros (decoded' & ws & [= <-] & -> & Hws & Hlast).
        by rewrite rstrip_unique.
    + split; [done|]. by intros (? & ? & ? & _).
  - intros i returns_i Hi.
    destruct (lookup_lt_is_Some_2 (expand_ids output_ids) i) as [output_i Ho].
    { rewrite <- Hlr. by eapply lookup_lt_Some. }
    exists output_i. split; [done|]. intros s Hs.
    destruct (Hrows i output_i Ho) as (r & pr & Hloop & Hr & Hpr).
    assert (returns_i = r) as -> by congruence.
    destruct (candidates_loop_origin _ _ _ _ _ _ _ Hloop s Hs) as [Hnil|(c & Hc & Htext)].
    { inversion Hnil. }
    by exists c.
Qed.

(** C7. In every row the first candidate is processed whatever its
    probability, so a suggestion has been collected exactly from the
    second candidate on.  When [j] is the first index from there with
    [output_probs[i, j] < 0], the suggestions of the row are the texts of
    the candidates before [j]: those are all processed, the candidate at
    [j] and those after it contribute nothing. *)
Theorem process_results_stops_at_negative output_ids rets rps :
  process_results negative output_ids output_probs tokenizer
    last_complete_word_position = Ok (rets, rps) →
  ∀ i output_i, expand_ids output_ids !! i = Some output_i →
  ∃ returns_i, rets !! i = Some returns_i ∧
    (∀ output_i0 rest, output_i = output_i0 :: rest →
       ∃ s, candidate_text tokenizer last_complete_word_position output_i0 = Ok s ∧
            head returns_i = Some s) ∧
    (∀ j p, (0 < j < length output_i)%nat →
       probs_item prob output_probs i j = Ok p → negative p = true →
       (∀ j' p', (0 < j' < j)%nat →
          probs_item prob output_probs i j' = Ok p' → negative p' = false) →
       ∀ s, s ∈ returns_i ↔
            ∃ j' output_ij, (j' < j)%nat ∧ output_i !! j' = Some output_ij ∧
              candidate_text tokenizer last_complete_word_position output_ij = Ok s).
Proof.
  intros (Hlr & Hlp & Hrows)%process_results_rows i output_i Ho.
  destruct (Hrows i output_i Ho) as (r & pr & Hloop & Hr & Hpr).
  exists r. split_and!; [done| |].
  - intros c rest ->. by eapply candidates_loop_first.
  - intros j p [Hj0 Hj] Hp Hneg Hfirst s.
    destruct (lookup_lt_is_Some_2 output_i j Hj) as [c Hc].
    rewrite <- (take_drop_middle output_i j c Hc) in Hloop.
    assert (length (take j output_i) = j) as Hlen by (rewrite length_take; lia).
    rewrite (candidates_loop_stop _ _ _ _ _ _ _ p _ _ Hloop).
    + split.
      * intros [Hnil|(c' & (j' & ? & ?)%elem_of_take & ?)]; [inversion Hnil|].
        by exists j', c'.
      * intros (j' & c' & ? & ? & ?). right. exists c'. split; [|done].
        apply elem_of_take. by exists j'.
    + by rewrite Hlen.
    + done.
    + right. intros Hnil. rewrite Hnil in Hlen. simpl in Hlen. lia.
    + intros k p' Hk [Hnil|Hk0] Hp'; [done|].
      apply (Hfirst k p'); [lia|done].
Qed.
End ProcessResultsFacts.

(** ** The properties on the sample inputs *)

Lemma lcg_randint_range (a b s : Z) :
  a ≤ b → ∃ n s', lcg_randint a b s = (Ok n, s') ∧ a ≤ n ≤ b.
Proof.
  intros Hab. eexists _, _. split; [reflexivity|].
  pose proof (Z.mod_pos_bound s (b - a + 1)). lia.
Qed.

Lemma generate_random_graph_name_not_parameter_witness :
  let m := model (sample_accessor [sample_weight; sample_generated]) in
  (∀ a b s, a ≤ b → ∃ n s', lcg_randint a b s = (Ok n, s') ∧ a ≤ n ≤ b) ∧
  (∃ n s',
     generate_random_graph_name Z lcg_randint "shape" 2024 =
       (Ok (str_of_int n +:+ "." +:+ "shape"), s') ∧
     0 ≤ n ≤ 1000 ∧
     begins_with_digit (str_of_int n +:+ "." +:+ "shape")) ∧
  (generate_random_graph_name Z lcg_randint "shape" 2024).1 =
    Ok (t_name sample_generated) ∧
  ∃ trainable non_trainable,
    get_model_parameters m [] = Ok (trainable, non_trainable) ∧
    sample_weight ∈ trainable ∧
    (sample_generated ∉ trainable) ∧ (sample_generated ∉ non_trainable).
Proof.
  intros m.
  split; [exact lcg_randint_range|].
  destruct (generate_random_graph_name_not_parameter Z lcg_randint lcg_randint_range
              "shape" 2024) as (n & s' & Hname & Hn & Hdigit & Hparams).
  split; [by exists n, s'|].
  assert ((generate_random_graph_name Z lcg_randint "shape" 2024).1 =
            Ok (t_name sample_generated)) as Hgenerated by reflexivity.
  split; [exact Hgenerated|].
  assert (t_name sample_generated = str_of_int n +:+ "." +:+ "shape") as Heq.
  { rewrite Hname in Hgenerated. injection Hgenerated as Hg. symmetry. exact Hg. }
  destruct (Hparams m []) as [Htotal Hlists].
  destruct Htotal as (trainable & non_trainable & Hok).
  { by repeat constructor. }
  destruct (Hlists trainable non_trainable Hok) as [Hiff Hgen].
  exists trainable, non_trainable. split; [exact Hok|].
  split.
  - apply (Hiff sample_weight); [left|]. split.
    + by intros [].
    + by intros ?%elem_of_nil.
  - exact (Hgen sample_generated Heq).
Defined.

(** On a model with an unnamed initializer [get_model_parameters] raises
    [IndexError] and returns no list: neither the parameter met before
    the unnamed initializer nor the unnamed initializer itself, whose
    names do not begin with a digit, is put in a list. *)
Lemma get_model_parameters_unnamed_initializer_no_lists :
  let m := model (sample_accessor [sample_weight; sample_unnamed]) in
  get_model_parameters m [] = Raise IndexError ∧
  sample_weight ∈ initializer (graph m) ∧
  begins_with_digit (t_name sample_weight) = false ∧
  sample_unnamed ∈ initializer (graph m) ∧
  begins_with_digit (t_name sample_unnamed) = false ∧
  ¬ ∃ trainable non_trainable,
      get_model_parameters m [] = Ok (trainable, non_trainable).
Proof.
  intros m.
  assert (get_model_parameters m [] = Raise IndexError) as Hr by reflexivity.
  split_and!; [exact Hr|left|done|right; left|done|].
  intros (trainable & non_trainable & Hok). congruence.
Qed.

(** On a model with an unnamed initializer [build_gradient_graph] raises
    [IndexError] in the middle of the loop: the parameter met before is
    still an initializer although its graph input has been appended, and
    no eval model has been stored. *)
Lemma build_gradient_graph_unnamed_initializer_keeps_parameter :
  let accessor := sample_accessor [sample_weight; sample_unnamed; sample_constant] in
  let r := build_gradient_graph identity_builder [] [] (OneName "loss") accessor in
  r.1 = Raise IndexError ∧
  begins_with_digit (t_name sample_weight) = false ∧
  sample_weight ∈ initializer (graph (model r.2)) ∧
  initializer (graph (model r.2)) ≠
    filter (λ t, begins_with_digit (t_name t)) (initializer (graph (model accessor))) ∧
  input (graph (model r.2)) = [initializer_value_info sample_weight] ∧
  eval_model r.2 = None.
Proof.
  intros accessor r.
  assert (initializer (graph (model r.2)) =
            [sample_weight; sample_unnamed; sample_constant]) as Hinit by (by vm_compute).
  split_and!; [by vm_compute|done| | |by vm_compute..].
  - rewrite Hinit. left.
  - rewrite Hinit. by vm_compute.
Qed.

(** On the same model [build_gradient_graph] returns no set at all. *)
Lemma build_gradient_graph_unnamed_initializer_no_result :
  let accessor := sample_accessor [sample_weight; sample_unnamed; sample_constant] in
  let r := build_gradient_graph identity_builder ["x"] [] (OneName "loss") accessor in
  r.1 = Raise IndexError ∧ ¬ ∃ s, r.1 = Ok s.
Proof.
  intros accessor r.
  assert (r.1 = Raise IndexError) as Hr by (by vm_compute).
  split; [exact Hr|]. intros [s Hs]. congruence.
Qed.

Lemma build_gradient_graph_returns_names_witness :
  let accessor := sample_accessor [sample_weight; sample_constant] in
  let r := build_gradient_graph identity_builder ["x"] [] (OneName "loss") accessor in
  ∃ s, r.1 = Ok s ∧ "fc1.weight" ∈ s ∧ "x" ∈ s ∧ "12.shape" ∉ s.
Proof.
  intros accessor r.
  destruct (build_gradient_graph_returns_names identity_builder ["x"] []
              (OneName "loss") accessor) as [Hret Hraise].
  fold r in Hret, Hraise.
  destruct r.1 as [s|e] eqn:Hr; [|by vm_compute in Hr].
  exists s. split; [done|]. rewrite !(Hret s eq_refl). split_and!.
  - left. exists sample_weight. split_and!; [left|done|by intros ?|by intros ?%elem_of_nil].
  - right. left.
  - intros [(t & Ht & Hn & Hd & _)|Hx].
    + apply elem_of_cons in Ht as [->|Ht]; [done|].
      apply list_elem_of_singleton in Ht as ->. by apply Hd.
    + by apply list_elem_of_singleton in Hx.
Defined.

Lemma build_gradient_graph_moves_initializers_witness :
  let accessor := sample_accessor [sample_weight; sample_constant] in
  let r := build_gradient_graph identity_builder ["x"] [] (OneName "loss") accessor in
  Forall (λ t, t_name t ≠ "") (initializer (graph (model accessor))) ∧
  ∃ m1,
    eval_model r.2 = Some m1 ∧
    initializer (graph m1) = [sample_constant] ∧
    input (graph m1) = [initializer_value_info sample_weight].
Proof.
  intros accessor r.
  assert (Forall (λ t, t_name t ≠ "") (initializer (graph (model accessor)))) as Hne
    by (by repeat constructor).
  split; [exact Hne|].
  destruct (build_gradient_graph_moves_initializers identity_builder ["x"] []
              (OneName "loss") accessor Hne)
    as (m1 & Heval & Hinit & (new_inputs & Hin & Hnew) & _).
  exists m1. split; [exact Heval|]. split; [exact Hinit|].
  vm_compute in Heval. injection Heval as <-. reflexivity.
Defined.

Lemma process_results_lists_witness :
  process_results (λ p, p <? 0) sample_output_ids sample_output_probs
    sample_tokenizer 1 = Ok ([["6"; "7"]], [[-1; 3]]) ∧
  (length [["6"; "7"]] = length [[-1; 3]] ∧
   Forall2 (λ returns_i probs_i : list _, length returns_i = length probs_i)
     [["6"; "7"]] [[-1; 3]] ∧
   Forall NoDup [["6"; "7"]]).
Proof.
  split; [reflexivity|].
  apply (process_results_lists Z (λ p, p <? 0) sample_tokenizer sample_output_probs 1
           sample_output_ids).
  reflexivity.
Defined.

Lemma process_results_suggestion_text_witness :
  0 ≤ 1 ∧
  process_results (λ p, p <? 0) sample_output_ids sample_output_probs
    sample_spaced_tokenizer 1 = Ok ([["6"; "7"]], [[-1; 3]]) ∧
  decode sample_spaced_tokenizer (drop 1 (truncate_at_eos 0 [5; 6; 0; 7])) = Ok "6 " ∧
  candidate_text sample_spaced_tokenizer 1 [5; 6; 0; 7] = Ok "6" ∧
  ∀ s, s ∈ ["6"; "7"] →
    ∃ output_ij, output_ij ∈ [[5; 6; 0; 7]; [5; 7; 0]; [8; 0]; [9]] ∧
      candidate_text sample_spaced_tokenizer 1 output_ij = Ok s.
Proof.
  assert (0 ≤ 1) as Hpos by lia.
  assert (process_results (λ p, p <? 0) sample_output_ids sample_output_probs
            sample_spaced_tokenizer 1 = Ok ([["6"; "7"]], [[-1; 3]])) as Hok
    by reflexivity.
  split; [exact Hpos|]. split; [exact Hok|]. split; [reflexivity|].
  destruct (process_results_suggestion_text Z (λ p, p <? 0) sample_spaced_tokenizer
              sample_output_probs 1 sample_output_ids _ _ Hpos Hok) as [Htext Hrows].
  split.
  - apply Htext. exists "6 ", " ". split; [reflexivity|]. split; [reflexivity|].
    split; [by repeat constructor|].
    intros [|a [|b s']] c [=]; by subst.
  - destruct (Hrows 0%nat ["6"; "7"] eq_refl) as (output_i & Hrow & Hall).
    injection Hrow as <-. exact Hall.
Defined.

(** With a negative [last_complete_word_position] the code keeps the last
    tokens of the truncated list instead of dropping a prefix: the text it
    returns is not the one obtained by dropping tokens from the front. *)
Lemma process_results_negative_position_counterexample :
  process_results (λ p, p <? 0) (Ids2 [[5; 6; 0; 7]]) [[1]] sample_tokenizer (-1) =
    Ok ([["6"]], [[1]]) ∧
  candidate_text sample_tokenizer (-1) [5; 6; 0; 7] = Ok "6" ∧
  suggestion_text sample_tokenizer (-1) [5; 6; 0; 7] = Ok "5 6" ∧
  candidate_text sample_tokenizer (-1) [5; 6; 0; 7] ≠
    suggestion_text sample_tokenizer (-1) [5; 6; 0; 7].
Proof. split_and!; [reflexivity..|]. by vm_compute. Qed.

Lemma process_results_stops_at_negative_witness :
  process_results (λ p, p <? 0) sample_output_ids sample_output_probs
    sample_tokenizer 1 = Ok ([["6"; "7"]], [[-1; 3]]) ∧
  expand_ids sample_output_ids !! 0%nat = Some [[5; 6; 0; 7]; [5; 7; 0]; [8; 0]; [9]] ∧
  ∀ s, s ∈ ["6"; "7"] ↔
       ∃ j' output_ij, (j' < 2)%nat ∧
         [[5; 6; 0; 7]; [5; 7; 0]; [8; 0]; [9]] !! j' = Some output_ij ∧
         candidate_text sample_tokenizer 1 output_ij = Ok s.
Proof.
  assert (process_results (λ p, p <? 0) sample_output_ids sample_output_probs
            sample_tokenizer 1 = Ok ([["6"; "7"]], [[-1; 3]])) as Hok by reflexivity.
  assert (expand_ids sample_output_ids !! 0%nat =
            Some [[5; 6; 0; 7]; [5; 7; 0]; [8; 0]; [9]]) as Hrow by reflexivity.
  split; [exact Hok|]. split; [exact Hrow|].
  destruct (process_results_stops_at_negative Z (λ p, p <? 0) sample_tokenizer
              sample_output_probs 1 sample_output_ids _ _ Hok 0%nat _ Hrow)
    as (returns_i & Hr & _ & Hstop).
  injection Hr as <-.
  apply (Hstop 2%nat (-2)); [simpl; lia|reflexivity|reflexivity|].
  intros j' p' Hj'. assert (j' = 1%nat) as -> by lia.
  intros [= <-]. reflexivity.
Defined.

(** ** Further properties of [_graph_utils.py] *)

(** *** Strings and decimal numerals *)

Lemma str_app_cons (c : ascii) (s1 s2 : string) :
  String c s1 +:+ s2 = String c (s1 +:+ s2).
Proof. reflexivity. Qed.

Lemma str_app_nil_l (s : string) : "" +:+ s = s.
Proof. reflexivity. Qed.

Lemma str_app_assoc (s1 s2 s3 : string) : (s1 +:+ s2) +:+ s3 = s1 +:+ (s2 +:+ s3).
Proof.
  induction s1 as [|c s1 IH]; [done|]. by rewrite !str_app_cons, IH.
Qed.

Lemma str_app_last_inj (s1 s2 : string) (c1 c2 : ascii) :
  s1 +:+ String c1 "" = s2 +:+ String c2 "" → s1 = s2 ∧ c1 = c2.
Proof.
  revert s2. induction s1 as [|a s1 IH]; intros [|b s2];
    rewrite ?str_app_cons, ?str_app_nil_l; intros [=].
  - done.
  - by destruct s2.
  - by destruct s1.
  - subst. by destruct (IH s2) as [-> ->].
Qed.

(** A gradient name never is an accumulation output name: they end in
    different letters. *)
Lemma grad_name_not_accumulation_out (arg g : string) :
  arg +:+ "_grad" ≠ g +:+ ".accumulation.out".
Proof.
  intros Heq.
  assert (arg +:+ "_grad" = (arg +:+ "_gra") +:+ "d") as H1
    by (by rewrite str_app_assoc).
  assert (g +:+ ".accumulation.out" = (g +:+ ".accumulation.ou") +:+ "t") as H2
    by (by rewrite str_app_assoc).
  rewrite H1, H2 in Heq. by apply str_app_last_inj in Heq as [_ [=]].
Qed.

Lemma str_of_int_inj (n m : Z) : str_of_int n = str_of_int m → n = m.
Proof.
  unfold str_of_int. intros Heq. apply DecimalZ.to_int_inj.
  assert (∀ z, NilZero.int_of_string (NilZero.string_of_int (Z.to_int z)) =
               Some (Z.to_int z)) as Hparse.
  { intros z. apply NilZero.isi; destruct z as [|p|p]; simpl; try done;
      intros [= H]; by apply DecimalPos.Unsigned.to_uint_nonnil in H. }
  apply (inj Some). by rewrite <- !Hparse, Heq.
Qed.

Lemma string_of_uint_all_digits (d : Decimal.uint) :
  all_digits (NilEmpty.string_of_uint d) = true.
Proof. induction d; simpl; done. Qed.

Lemma str_of_int_all_digits (n : Z) : 0 ≤ n → all_digits (str_of_int n) = true.
Proof.
  intros Hn. unfold str_of_int. destruct n as [|p|p]; [done| |lia].
  cbn [Z.to_int NilZero.string_of_int]. unfold NilZero.string_of_uint.
  destruct (Pos.to_uint p); [done|apply string_of_uint_all_digits..].
Qed.

(** A numeral, a dot and a token: the dot found first ends the numeral. *)
Lemma numeral_dot_inj (s1 s2 t1 t2 : string) :
  all_digits s1 = true → all_digits s2 = true →
  s1 +:+ "." +:+ t1 = s2 +:+ "." +:+ t2 → s1 = s2 ∧ t1 = t2.
Proof.
  revert s2. induction s1 as [|a s1 IH]; intros [|b s2] H1 H2;
    rewrite ?str_app_cons, ?str_app_nil_l; intros [=]; subst.
  - done.
  - done.
  - done.
  - simpl in H1, H2. apply andb_prop in H1 as [_ H1], H2 as [_ H2].
    by destruct (IH s2 H1 H2) as [-> ->].
Qed.

(** *** [get_model_parameters] *)

(** X1. [get_model_parameters] raises exactly when an initializer has an
    empty name, whatever its other fields and the excluded names are, and
    the error is [IndexError]; otherwise it returns. *)
Theorem get_model_parameters_error (model : ModelProto) (args : list string) :
  (get_model_parameters model args = Raise IndexError ↔
     Exists (λ t, t_name t = "") (initializer (graph model))) ∧
  ((∃ trainable non_trainable,
      get_model_parameters model args = Ok (trainable, non_trainable)) ↔
     Forall (λ t, t_name t ≠ "") (initializer (graph model))) ∧
  (∀ e, get_model_parameters model args = Raise e → e = IndexError).
Proof.
  unfold get_model_parameters.
  pose proof (parameters_loop_result (initializer (graph model)) args [] []) as Hres.
  destruct (parameters_loop _ args [] []) as [[tr ntr]|e] eqn:Hloop.
  - split_and!.
    + split; [done|]. intros Hex. exfalso. revert Hex. apply Forall_not_Exists.
      eapply Forall_impl; [exact Hres|done].
    + split; [done|]. intros _. by exists tr, ntr.
    + done.
  - destruct Hres as [-> Hex]. split_and!.
    + done.
    + split; [by intros (? & ? & ?)|]. intros Hall. exfalso. revert Hex.
      apply Forall_not_Exists. eapply Forall_impl; [exact Hall|done].
    + by intros e [= <-].
Qed.

(** X2. The two lists [get_model_parameters] returns keep the order of the
    initializers, have no element in common, and together are the
    initializers whose name does not begin with a digit, each once. *)
Theorem get_model_parameters_partition (model : ModelProto) (args : list string)
    trainable non_trainable :
  get_model_parameters model args = Ok (trainable, non_trainable) →
  trainable `sublist_of` initializer (graph model) ∧
  non_trainable `sublist_of` initializer (graph model) ∧
  (∀ t, t ∈ trainable → t ∉ non_trainable) ∧
  trainable ++ non_trainable ≡ₚ
    filter (λ t, ¬ begins_with_digit (t_name t)) (initializer (graph model)).
Proof.
  intros Hok.
  destruct (get_model_parameters_spec model args) as (_ & _ & Hlists).
  destruct (Hlists _ _ Hok) as [-> ->]. split_and!.
  - apply sublist_filter.
  - apply sublist_filter.
  - intros t [[_ Hn] _]%list_elem_of_filter [[_ Hy] _]%list_elem_of_filter. done.
  - set (inits := initializer (graph model)).
    assert (filter (λ t, ¬ begins_with_digit (t_name t) ∧ t_name t ∉ args) inits =
            filter (λ t, t_name t ∉ args)
              (filter (λ t, ¬ begins_with_digit (t_name t)) inits)) as ->.
    { rewrite list_filter_filter. apply list_filter_iff. intros t. tauto. }
    assert (filter (λ t, ¬ begins_with_digit (t_name t) ∧ t_name t ∈ args) inits =
            filter (λ t, ¬ (t_name t ∉ args))
              (filter (λ t, ¬ begins_with_digit (t_name t)) inits)) as ->.
    { rewrite list_filter_filter. apply list_filter_iff. intros t.
      split; [intros [? ?]|intros [Hn ?]].
      - split; [|done]. by intros Hn.
      - split; [done|]. by apply dec_stable. }
    apply filter_app_complement.
Qed.

(** *** [build_gradient_graph] *)

(** The initializer loop up to the first unnamed initializer: the inputs of
    the parameters met before it have been appended, nothing else. *)
Lemma initializer_loop_unnamed pre t post user_args_not_requiring_grad
    (all_args : gset string) initializers (a : Accessor) :
  Forall (λ t, t_name t ≠ "") pre → t_name t = "" →
  initializer_loop (pre ++ t :: post) user_args_not_requiring_grad all_args initializers a =
  (Raise IndexError,
   on_model (graph_input_extend
     (initializer_value_info <$> filter (λ t, ¬ begins_with_digit (t_name t)) pre)) a).
Proof.
  intros Hpre Ht. revert all_args initializers a.
  induction Hpre as [|t0 pre Ht0 _ IH]; intros all_args initializers a.
  - cbn [app initializer_loop]. rewrite M_bind_unfold. unfold lift.
    rewrite str_item_0, Ht. rewrite filter_nil. cbn [fmap list_fmap].
    unfold on_model. rewrite graph_input_extend_nil. by destruct a.
  - cbn [app initializer_loop]. rewrite M_bind_unfold. unfold lift.
    rewrite str_item_0, filter_cons.
    destruct (t_name t0) as [|c s] eqn:Hname; [done|]. cbn [begins_with_digit].
    destruct (isdigit c) eqn:Hc; cbn [negb].
    + rewrite (decide_False (P := ¬ true)) by (intros H; by apply H). apply IH.
    + rewrite (decide_True (P := ¬ false)) by (by intros ?).
      rewrite M_bind_unfold. unfold modify.
      assert (∀ S K,
        initializer_loop (pre ++ t :: post) user_args_not_requiring_grad S K
          (on_model (graph_input_append
             (make_tensor_value_info (String c s) (t_data_type t0) (t_dims t0))) a) =
        (Raise IndexError,
         on_model (graph_input_extend
           (initializer_value_info <$>
              t0 :: filter (λ t, ¬ begins_with_digit (t_name t)) pre)) a)) as Hnext.
      { intros S K. rewrite IH. f_equal. unfold on_model; cbn [model eval_model].
        f_equal. rewrite graph_input_extend_append, fmap_cons.
        unfold initializer_value_info. by rewrite Hname. }
      case_bool_decide; apply Hnext.
Qed.

Section GradientGraphMore.
Variable GradientGraphBuilder :
  ModelProto → gset string → gset string → string → result ModelProto.

(** X3. When an initializer has an empty name, [build_gradient_graph]
    raises [IndexError] without undoing what the loop did before: the
    model keeps all its initializers, nodes and outputs and no eval model is
    stored, but the graph inputs of the parameters that come before the
    first unnamed initializer have been appended. *)
Theorem build_gradient_graph_unnamed_initializer user_args_requiring_grad
    user_args_not_requiring_grad output_names (accessor : Accessor) pre t post :
  initializer (graph (model accessor)) = pre ++ t :: post →
  Forall (λ t, t_name t ≠ "") pre → t_name t = "" →
  let r := build_gradient_graph GradientGraphBuilder user_args_requiring_grad
             user_args_not_requiring_grad output_names accessor in
  r.1 = Raise IndexError ∧
  initializer (graph (model r.2)) = initializer (graph (model accessor)) ∧
  input (graph (model r.2)) =
    input (graph (model accessor)) ++
    (initializer_value_info <$> filter (λ t, ¬ begins_with_digit (t_name t)) pre) ∧
  node (graph (model r.2)) = node (graph (model accessor)) ∧
  output (graph (model r.2)) = output (graph (model accessor)) ∧
  eval_model r.2 = eval_model accessor.
Proof.
  intros Hinits Hpre Ht r. subst r.
  unfold build_gradient_graph. rewrite M_bind_unfold. cbv [get].
  rewrite M_bind_unfold, Hinits, initializer_loop_unnamed by done.
  cbn [fst snd on_model model eval_model graph_input_extend with_graph graph
       initializer input node output].
  by rewrite Hinits.
Qed.


(** X5. Moving the initializers loses and duplicates nothing: in the eval
    model the names of the graph inputs followed by the names of the
    initializers are a rearrangement of those of the model given, and the
    nodes, the outputs, the opset imports and the version are the same. *)
Theorem build_gradient_graph_eval_model_names user_args_requiring_grad
    user_args_not_requiring_grad output_names (accessor : Accessor) :
  Forall (λ t, t_name t ≠ "") (initializer (graph (model accessor))) →
  let r := build_gradient_graph GradientGraphBuilder user_args_requiring_grad
             user_args_not_requiring_grad output_names accessor in
  ∃ m1,
    eval_model r.2 = Some m1 ∧
    (vi_name <$> input (graph m1)) ++ (t_name <$> initializer (graph m1)) ≡ₚ
      (vi_name <$> input (graph (model accessor))) ++
      (t_name <$> initializer (graph (model accessor))) ∧
    node (graph m1) = node (graph (model accessor)) ∧
    output (graph m1) = output (graph (model accessor)) ∧
    opset_import m1 = opset_import (model accessor) ∧
    ir_version m1 = ir_version (model accessor).
Proof.
  intros Hne r. subst r. rewrite build_gradient_graph_run by done.
  exists (eval_model_of (model accessor)).
  split_and!.
  - by destruct (output_name_list output_names);
      [|destruct (GradientGraphBuilder _ _ _ _)].
  - cbn [eval_model_of graph_initializer_replace graph_input_extend with_graph
         graph input initializer].
    rewrite fmap_app, <- list_fmap_compose, <- (assoc_L (++)).
    apply Permutation_app_head.
    change (vi_name ∘ initializer_value_info) with t_name.
    rewrite <- fmap_app. apply fmap_Permutation.
    rewrite Permutation_app_comm. apply filter_app_complement.
  - done.
  - done.
  - done.
  - done.
Qed.

(** X6. The eval model holds no parameter any more:
    [get_model_parameters] on it returns two empty lists, whatever names
    are excluded. *)
Theorem build_gradient_graph_eval_model_parameters user_args_requiring_grad
    user_args_not_requiring_grad output_names (accessor : Accessor) :
  Forall (λ t, t_name t ≠ "") (initializer (graph (model accessor))) →
  let r := build_gradient_graph GradientGraphBuilder user_args_requiring_grad
             user_args_not_requiring_grad output_names accessor in
  ∃ m1,
    eval_model r.2 = Some m1 ∧
    ∀ args_not_requiring_gradient,
      get_model_parameters m1 args_not_requiring_gradient = Ok ([], []).
Proof.
  intros Hne r. subst r. rewrite build_gradient_graph_run by done.
  exists (eval_model_of (model accessor)). split.
  - by destruct (output_name_list output_names);
      [|destruct (GradientGraphBuilder _ _ _ _)].
  - intros args. unfold get_model_parameters.
    cbn [eval_model_of graph_initializer_replace graph_input_extend with_graph
         graph initializer].
    rewrite parameters_loop_run.
    + rewrite !list_filter_filter. cbn [app].
      assert (∀ (P : TensorProto → Prop) (dec : ∀ t, Decision (P t))
                (l : list TensorProto),
        filter (λ t, (¬ begins_with_digit (t_name t) ∧ P t) ∧
                     begins_with_digit (t_name t)) l = []) as Hnil.
      { intros P dec l. induction l as [|t l IH]; [done|].
        rewrite filter_cons, decide_False; [done|]. tauto. }
      by rewrite !Hnil.
    + apply Forall_forall. intros t [_ Ht]%list_elem_of_filter.
      by apply (proj1 (Forall_forall _ _) Hne).
Qed.

(** X7. The set [build_gradient_graph] returns is the set of the names of
    the trainable parameters [get_model_parameters] finds in the model
    given, with the same excluded names, joined with the names listed in
    [user_args_requiring_grad]. *)
Theorem build_gradient_graph_returns_trainable user_args_requiring_grad
    user_args_not_requiring_grad output_names (accessor : Accessor) s :
  (build_gradient_graph GradientGraphBuilder user_args_requiring_grad
     user_args_not_requiring_grad output_names accessor).1 = Ok s →
  ∃ trainable non_trainable,
    get_model_parameters (model accessor) user_args_not_requiring_grad =
      Ok (trainable, non_trainable) ∧
    s = list_to_set (t_name <$> trainable) ∪ list_to_set user_args_requiring_grad.
Proof.
  intros Hok.
  destruct (Forall_Exists_dec (λ t, t_name t ≠ "") (λ t, t_name t = "")
    (λ t, match decide (t_name t = "") with
          | left H => right H
          | right H => left H
          end) (initializer (graph (model accessor)))) as [Hne|Hex].
  - rewrite build_gradient_graph_run in Hok by done.
    unfold get_model_parameters. rewrite parameters_loop_run by done.
    eexists _, _. split; [done|].
    destruct (output_name_list output_names); [done|].
    destruct (GradientGraphBuilder _ _ _ _); [|done].
    by injection Hok as <-.
  - by rewrite build_gradient_graph_empty_name in Hok.
Qed.
End GradientGraphMore.

(** *** [build_gradient_accumulation_graph] *)

Lemma accumulator_nodes_elem names idx outs n :
  n ∈ accumulator_nodes names idx outs ↔
  ∃ k o, outs !! k = Some o ∧ is_gradient_output names o ∧
         n = accumulator_node (idx + k) o.
Proof.
  revert idx. induction outs as [|o outs IH]; intros idx; cbn [accumulator_nodes].
  - split; [by intros ?%elem_of_nil|]. by intros (k & o & ? & _).
  - assert ((∃ k o', outs !! k = Some o' ∧ is_gradient_output names o' ∧
                     n = accumulator_node (S idx + k) o') ↔
            (∃ k o', (o :: outs) !! S k = Some o' ∧ is_gradient_output names o' ∧
                     n = accumulator_node (idx + S k) o')) as Hshift.
    { split; intros (k & o' & ? & ? & ->); exists k, o';
        (split_and!; [done..|f_equal; lia]). }
    case_decide as Hg.
    + rewrite elem_of_cons, IH, Hshift. split.
      * intros [->|(k & o' & ? & ? & ->)].
        -- exists 0%nat, o. by rewrite Nat.add_0_r.
        -- by exists (S k), o'.
      * intros ([|k] & o' & Hk & ? & ->).
        -- left. simplify_eq/=. by rewrite Nat.add_0_r.
        -- right. by exists k, o'.
    + rewrite IH, Hshift. split.
      * intros (k & o' & ? & ? & ->). by exists (S k), o'.
      * intros ([|k] & o' & Hk & ? & ->); [by simplify_eq/=|]. by exists k, o'.
Qed.

Lemma accumulator_nodes_names_NoDup names idx outs :
  NoDup (n_name <$> accumulator_nodes names idx outs).
Proof.
  revert idx. induction outs as [|o outs IH]; intros idx; cbn [accumulator_nodes];
    [constructor|].
  case_decide; [|apply IH]. rewrite fmap_cons. apply NoDup_cons. split; [|apply IH].
  intros (n & Hname & (k & o' & _ & _ & ->)%accumulator_nodes_elem)%list_elem_of_fmap.
  cbn [accumulator_node n_name] in Hname.
  apply (inj (String.append "GradientAccumulator")), str_of_int_inj in Hname. lia.
Qed.

(** X8. The accumulator node made for the graph output at position [idx] is
    named [GradientAccumulator] followed by [idx] in decimal, so the nodes
    one call appends have pairwise distinct names. *)
Theorem build_gradient_accumulation_graph_node_names
    (grad_model : ModelProto) (all_args_requiring_gradient_names : gset string) :
  let r := build_gradient_accumulation_graph all_args_requiring_gradient_names grad_model in
  ∃ acc_nodes,
    node (graph r.2) = node (graph grad_model) ++ acc_nodes ∧
    NoDup (n_name <$> acc_nodes) ∧
    ∀ n, n ∈ acc_nodes ↔
      ∃ idx o, output (graph grad_model) !! idx = Some o ∧
        (∃ arg, arg ∈ all_args_requiring_gradient_names ∧
                vi_name o = arg +:+ "_grad") ∧
        n = make_node "InPlaceAccumulator"
              [vi_name o +:+ ".accumulation.buffer"; vi_name o; "lazy_reset_grad"]
              [vi_name o +:+ ".accumulation.out"]
              ("GradientAccumulator" +:+ str_of_int (Z.of_nat idx))
              "com.microsoft".
Proof.
  simpl. rewrite build_gradient_accumulation_graph_run.
  eexists. split; [done|]. split; [apply accumulator_nodes_names_NoDup|].
  intros n. apply accumulator_nodes_elem.
Qed.

(** X9. Every accumulator node is wired to the graph: its buffer and
    [lazy_reset_grad] are graph inputs of the new graph, its gradient is a
    graph output of the graph given, and what it writes is a graph output
    of the new graph. *)
Theorem build_gradient_accumulation_graph_wiring
    (grad_model : ModelProto) (all_args_requiring_gradient_names : gset string) :
  let r := build_gradient_accumulation_graph all_args_requiring_gradient_names grad_model in
  ∃ acc_nodes,
    node (graph r.2) = node (graph grad_model) ++ acc_nodes ∧
    ∀ n, n ∈ acc_nodes →
      ∃ buffer grad out,
        n_input n = [buffer; grad; "lazy_reset_grad"] ∧ n_output n = [out] ∧
        buffer ∈ vi_name <$> input (graph r.2) ∧
        "lazy_reset_grad" ∈ vi_name <$> input (graph r.2) ∧
        grad ∈ vi_name <$> output (graph grad_model) ∧
        out ∈ vi_name <$> output (graph r.2).
Proof.
  simpl. rewrite build_gradient_accumulation_graph_run.
  eexists. split; [done|].
  intros n (k & o & Hk & Hg & ->)%accumulator_nodes_elem.
  apply list_elem_of_lookup_2 in Hk.
  eexists _, _, _. split_and!; [done|done|..]; cbn [snd graph with_graph input output].
  - rewrite !fmap_app, !elem_of_app. right; left.
    apply list_elem_of_fmap. exists (accumulation_buffer o). split; [done|].
    apply list_elem_of_fmap. exists o. split; [done|]. by apply list_elem_of_filter.
  - rewrite !fmap_app, !elem_of_app. right; right. by left.
  - apply list_elem_of_fmap. by exists o.
  - apply list_elem_of_fmap. exists (accumulation_output all_args_requiring_gradient_names o).
    split; [|apply list_elem_of_fmap; by exists o].
    unfold accumulation_output. by rewrite decide_True.
Qed.

Lemma accumulation_no_gradient names idx outs :
  Forall (λ o, ¬ is_gradient_output names o) outs →
  accumulator_nodes names idx outs = [] ∧
  filter (is_gradient_output names) outs = [] ∧
  accumulation_output names <$> outs = outs.
Proof.
  intros Hall. revert idx. induction Hall as [|o outs Ho _ IH]; intros idx; [done|].
  destruct (IH (S idx)) as (Hn & Hf & Ho').
  cbn [accumulator_nodes]. rewrite filter_cons, fmap_cons, !decide_False by done.
  split_and!; [done..|]. unfold accumulation_output at 1.
  by rewrite decide_False, Ho' by done.
Qed.

(** X10. When no graph output is the gradient of one of the given
    arguments (so for the empty set of arguments), the call only appends
    the [lazy_reset_grad] input: nodes and outputs stay as they are. *)
Theorem build_gradient_accumulation_graph_no_gradient
    (grad_model : ModelProto) (all_args_requiring_gradient_names : gset string) :
  (∀ o arg, o ∈ output (graph grad_model) → arg ∈ all_args_requiring_gradient_names →
     vi_name o ≠ arg +:+ "_grad") →
  build_gradient_accumulation_graph all_args_requiring_gradient_names grad_model =
  (Ok (),
   {| ir_version := ir_version grad_model;
      opset_import := opset_import grad_model;
      graph := {| node := node (graph grad_model);
                  input := input (graph grad_model) ++
                           [make_tensor_value_info "lazy_reset_grad" BOOL [1]];
                  output := output (graph grad_model);
                  initializer := initializer (graph grad_model) |} |}).
Proof.
  intros Hno. rewrite build_gradient_accumulation_graph_run.
  destruct (accumulation_no_gradient all_args_requiring_gradient_names 0
              (output (graph grad_model))) as (-> & -> & ->).
  { apply Forall_forall. intros o Ho (arg & Harg & Hname). by apply (Hno o arg). }
  by rewrite app_nil_r.
Qed.

Lemma get_output_loop_Ok outs output_name (m : ModelProto) o :
  (get_output_loop outs output_name m).1 = Ok o → o ∈ outs ∧ vi_name o = output_name.
Proof.
  induction outs as [|o0 outs IH]; simpl; [done|].
  case_bool_decide as Hn; simpl.
  - intros [= <-]. split; [left|done].
  - intros [? ?]%IH. split; [by right|done].
Qed.

Lemma get_output_loop_cases outs output_name (m : ModelProto) :
  (∃ o, (get_output_loop outs output_name m).1 = Ok o) ∨
  (∃ msg, (get_output_loop outs output_name m).1 = Raise (LookupError msg)).
Proof.
  induction outs as [|o0 outs IH]; simpl; [right; eauto|].
  case_bool_decide; [left; eauto|done].
Qed.

(** X11. After [build_gradient_accumulation_graph] a gradient is no longer
    a graph output: looking up its name with [get_output_from_output_name]
    raises [LookupError], while its name followed by [.accumulation.out]
    is found. *)
Theorem get_output_after_accumulation (grad_model : ModelProto)
    (all_args_requiring_gradient_names : gset string) (g : ValueInfoProto) (arg : string) :
  g ∈ output (graph grad_model) →
  arg ∈ all_args_requiring_gradient_names →
  vi_name g = arg +:+ "_grad" →
  let m := (build_gradient_accumulation_graph all_args_requiring_gradient_names
              grad_model).2 in
  (∃ msg, (get_output_from_output_name (vi_name g) m).1 = Raise (LookupError msg)) ∧
  (∃ o, (get_output_from_output_name (vi_name g +:+ ".accumulation.out") m).1 = Ok o ∧
        vi_name o = vi_name g +:+ ".accumulation.out").
Proof.
  intros Hg Harg Hname m. subst m.
  rewrite build_gradient_accumulation_graph_run.
  unfold get_output_from_output_name. rewrite !M_bind_unfold. cbv [get].
  cbn [snd graph with_graph output]. split.
  - apply get_output_loop_raises.
    intros o' (o & -> & Ho)%list_elem_of_fmap. unfold accumulation_output.
    case_decide as Hgrad.
    + cbn [with_name vi_name]. rewrite Hname. intros Heq.
      by apply (grad_name_not_accumulation_out arg (vi_name o)).
    + intros Heq. apply Hgrad. exists arg. split; [done|]. by rewrite Heq.
  - match goal with
    | |- ∃ o, (get_output_loop ?outs ?n ?m).1 = _ ∧ _ =>
        destruct (get_output_loop_cases outs n m) as [[o Ho]|Hraise]
    end.
    + exists o. split; [done|]. by apply get_output_loop_Ok in Ho as [_ ?].
    + exfalso. pose proof (proj1 (get_output_loop_raises _ _ _) Hraise) as Hnone.
      apply (Hnone (accumulation_output all_args_requiring_gradient_names g)).
      * apply list_elem_of_fmap. by exists g.
      * unfold accumulation_output. rewrite decide_True; [done|]. by exists arg.
Qed.

(** *** [generate_random_graph_name] *)

Section RandomNameMore.
Variable rng : Type.
Variable randint : Z → Z → M rng Z.
Hypothesis randint_range :
  ∀ a b s, a ≤ b → ∃ n s', randint a b s = (Ok n, s') ∧ a ≤ n ≤ b.

(** X12. A generated name determines its token: two calls that return the
    same name were given the same token (and drew the same number). *)
Theorem generate_random_graph_name_token (token1 token2 : string) (s1 s2 : rng)
    (name : string) (s1' s2' : rng) :
  generate_random_graph_name rng randint token1 s1 = (Ok name, s1') →
  generate_random_graph_name rng randint token2 s2 = (Ok name, s2') →
  token1 = token2 ∧ (get_random_number rng randint s1).1 = (get_random_number rng randint s2).1.
Proof.
  unfold generate_random_graph_name, get_random_number. rewrite !M_bind_unfold.
  destruct (randint_range 0 1000 s1) as (n1 & r1 & -> & Hn1); [lia|].
  destruct (randint_range 0 1000 s2) as (n2 & r2 & -> & Hn2); [lia|].
  intros [= <- <-] [= Heq <-].
  apply numeral_dot_inj in Heq as [Hn ->];
    [|apply str_of_int_all_digits; lia..].
  apply str_of_int_inj in Hn as ->. done.
Qed.
End RandomNameMore.

Section GeneratedNamesStay.
Variable rng : Type.
Variable randint : Z → Z → M rng Z.
Hypothesis randint_range :
  ∀ a b s, a ≤ b → ∃ n s', randint a b s = (Ok n, s') ∧ a ≤ n ≤ b.
Variable GradientGraphBuilder :
  ModelProto → gset string → gset string → string → result ModelProto.

(** X13. An initializer that carries a name made by
    [generate_random_graph_name] is not taken for a parameter by
    [build_gradient_graph]: it is still an initializer of the eval model,
    no graph input of that name is added, and the name is in the returned
    set only if the user listed it in [user_args_requiring_grad]. *)
Theorem build_gradient_graph_keeps_generated_names (token : string) (s : rng)
    (name : string) (s' : rng) user_args_requiring_grad user_args_not_requiring_grad
    output_names (accessor : Accessor) (t : TensorProto) :
  generate_random_graph_name rng randint token s = (Ok name, s') →
  Forall (λ t, t_name t ≠ "") (initializer (graph (model accessor))) →
  t ∈ initializer (graph (model accessor)) →
  t_name t = name →
  let r := build_gradient_graph GradientGraphBuilder user_args_requiring_grad
             user_args_not_requiring_grad output_names accessor in
  ∃ m1,
    eval_model r.2 = Some m1 ∧
    t ∈ initializer (graph m1) ∧
    (name ∈ vi_name <$> input (graph m1) →
       name ∈ vi_name <$> input (graph (model accessor))) ∧
    (∀ names, r.1 = Ok names → name ∈ names → name ∈ user_args_requiring_grad).
Proof.
  intros Hgen Hne Ht Hname r. subst r.
  assert (begins_with_digit name) as Hdigit.
  { revert Hgen. unfold generate_random_graph_name, get_random_number.
    rewrite M_bind_unfold.
    destruct (randint_range 0 1000 s) as (n & s0 & -> & Hn); [lia|].
    intros [= <- <-].
    destruct (str_of_int_begins_with_digit n) as (c & d & -> & Hc); [lia|].
    simpl. by rewrite Hc. }
  rewrite build_gradient_graph_run by done.
  exists (eval_model_of (model accessor)). split_and!.
  - by destruct (output_name_list output_names);
      [|destruct (GradientGraphBuilder _ _ _ _)].
  - cbn [eval_model_of graph_initializer_replace with_graph graph initializer].
    apply list_elem_of_filter. by rewrite Hname.
  - cbn [eval_model_of graph_initializer_replace graph_input_extend with_graph
         graph input].
    rewrite fmap_app, elem_of_app. intros [?|Hin]; [done|]. exfalso.
    apply list_elem_of_fmap in Hin as (v & -> & (t' & -> & [Hd _]%list_elem_of_filter)%list_elem_of_fmap).
    by apply Hd.
  - intros names Hok Hin.
    assert (names = trainable_names user_args_not_requiring_grad
                      (initializer (graph (model accessor)))
                    ∪ list_to_set user_args_requiring_grad) as ->.
    { destruct (output_name_list output_names); [done|].
      destruct (GradientGraphBuilder _ _ _ _); [|done]. by injection Hok as <-. }
    apply elem_of_union in Hin as [Hin|Hin]; [|by apply elem_of_list_to_set in Hin].
    exfalso. unfold trainable_names in Hin.
    apply elem_of_list_to_set, list_elem_of_fmap in Hin
      as (t' & -> & [[Hd _] _]%list_elem_of_filter).
    by apply Hd.
Qed.
End GeneratedNamesStay.

(** ** Further properties of [model_runner.py] *)

Lemma probs_item_raise {prob} (output_probs : list (list prob)) i j e :
  probs_item prob output_probs i j = Raise e → e = IndexError.
Proof.
  unfold probs_item, list_item.
  destruct (output_probs !! i) as [row|]; cbn [mbind result_bind]; [|by intros [= <-]].
  destruct (row !! j); [done|by intros [= <-]].
Qed.

Section ProcessResultsMore.
Variable prob : Type.
Variable negative : prob → bool.
Variable tokenizer : Tokenizer.
Variable output_probs : list (list prob).
Variable last_complete_word_position : Z.

Abbreviation cands_loop :=
  (candidates_loop prob negative tokenizer output_probs last_complete_word_position).
Abbreviation cand_text := (candidate_text tokenizer last_complete_word_position).

(** What the loop appends: pairs of a text and a probability, each taken
    from one candidate, in the order of the candidates; only the first pair
    of a row can have a negative probability. *)
Lemma candidates_loop_pairs output_i i j returns_i probs_i r pr :
  cands_loop i j output_i returns_i probs_i = Ok (r, pr) →
  ∃ rs ps,
    r = returns_i ++ rs ∧ pr = probs_i ++ ps ∧
    length rs = length ps ∧ (length rs ≤ length output_i)%nat ∧
    (∀ k s p, rs !! k = Some s → ps !! k = Some p →
       ∃ j' c, (k ≤ j')%nat ∧ output_i !! j' = Some c ∧ cand_text c = Ok s ∧
               probs_item prob output_probs i (j + j') = Ok p) ∧
    (∀ k p, ps !! k = Some p → returns_i ≠ [] ∨ (0 < k)%nat → negative p = false).
Proof.
  revert j returns_i probs_i.
  induction output_i as [|c rest IH]; intros j returns_i probs_i Hok.
  - simplify_eq/=. exists [], []. rewrite !app_nil_r. split_and!; [done..| |]; by intros [].
  - apply candidates_loop_cons_Ok in Hok
      as [(_ & _ & -> & ->)
         |(Hstop & text & Htext & [(Hin & p & Hp & Hok)|(Hin & Hok)])].
    + exists [], []. rewrite !app_nil_r. split_and!; [done|done|done|simpl; lia| |];
        by intros [].
    + apply IH in Hok as (rs & ps & -> & -> & Hlen & Hle & Hpairs & Hneg).
      exists (text :: rs), (p :: ps). rewrite <- !(assoc_L (++)).
      split_and!; [done|done|simpl; lia|simpl; lia| |].
      * intros [|k] s0 p0 Hs0 Hp0; simplify_eq/=.
        -- exists 0%nat, c. rewrite Nat.add_0_r. split_and!; [lia|done..].
        -- destruct (Hpairs k s0 p0 Hs0 Hp0) as (j' & c' & ? & ? & ? & Hitem).
           exists (S j'), c'. rewrite Nat.add_succ_r. split_and!; [lia|done..].
      * intros [|k] p0 Hp0 Hcond; simplify_eq/=.
        -- destruct Hcond as [Hr|?]; [|lia].
           destruct Hstop as [->|(p' & Hp' & Hn)]; [done|]. congruence.
        -- apply (Hneg k p0 Hp0). left. by destruct returns_i.
    + apply IH in Hok as (rs & ps & -> & -> & Hlen & Hle & Hpairs & Hneg).
      assert (returns_i ≠ []) as Hne by (intros ->; inversion Hin).
      exists rs, ps. split_and!; [done|done|done|simpl; lia| |].
      * intros k s0 p0 Hs0 Hp0.
        destruct (Hpairs k s0 p0 Hs0 Hp0) as (j' & c' & ? & ? & ? & Hitem).
        exists (S j'), c'. rewrite Nat.add_succ_r. split_and!; [lia|done..].
      * intros k p0 Hp0 _. apply (Hneg k p0 Hp0). by left.
Qed.

(** Where each appended pair comes from: the positions [js] of the
    candidates whose text was appended grow with the position in the
    result, and the candidate at such a position is the first one of the
    row with its text. *)
Lemma candidates_loop_indices output_i i j returns_i probs_i r pr :
  cands_loop i j output_i returns_i probs_i = Ok (r, pr) →
  ∃ rs ps js,
    r = returns_i ++ rs ∧ pr = probs_i ++ ps ∧
    length js = length rs ∧ length js = length ps ∧
    (∀ k1 k2 j1 j2, (k1 < k2)%nat →
       js !! k1 = Some j1 → js !! k2 = Some j2 → (j1 < j2)%nat) ∧
    (∀ k j', js !! k = Some j' →
       (k ≤ j')%nat ∧
       ∃ c s p, output_i !! j' = Some c ∧ cand_text c = Ok s ∧
         probs_item prob output_probs i (j + j') = Ok p ∧
         rs !! k = Some s ∧ ps !! k = Some p ∧ (s ∉ returns_i) ∧
         ∀ j'' c'', (j'' < j')%nat → output_i !! j'' = Some c'' →
           cand_text c'' ≠ Ok s).
Proof.
  revert j returns_i probs_i.
  induction output_i as [|c rest IH]; intros j returns_i probs_i Hok.
  - simplify_eq/=. exists [], [], []. rewrite !app_nil_r.
    split_and!; [done..| |]; by intros [].
  - apply candidates_loop_cons_Ok in Hok
      as [(_ & _ & -> & ->)
         |(_ & text & Htext & [(Hin & p & Hp & Hok)|(Hin & Hok)])].
    + exists [], [], []. rewrite !app_nil_r. split_and!; [done..| |]; by intros [].
    + apply IH in Hok as (rs & ps & js & -> & -> & Hlr & Hlp & Hmono & Hjs).
      exists (text :: rs), (p :: ps), (0%nat :: (S <$> js)).
      rewrite <- !(assoc_L (++)).
      split_and!; [done|done|by (simpl; rewrite length_fmap, Hlr)
                  |by (simpl; rewrite length_fmap, Hlp)| |].
      * intros [|k1] [|k2] j1 j2 Hk H1 H2; [lia| |lia|].
        -- change ((S <$> js) !! k2 = Some j2) in H2.
           rewrite list_lookup_fmap in H2.
           destruct (js !! k2); simplify_eq/=. lia.
        -- change ((S <$> js) !! k1 = Some j1) in H1.
           change ((S <$> js) !! k2 = Some j2) in H2.
           rewrite list_lookup_fmap in H1, H2.
           destruct (js !! k1) as [x1|] eqn:Hx1; [|done].
           destruct (js !! k2) as [x2|] eqn:Hx2; [|done].
           simplify_eq/=. apply (Hmono k1 k2 x1 x2) in Hx1; [lia|lia|done].
      * intros [|k] j' Hj'.
        -- cbn in Hj'. injection Hj' as <-. split; [lia|].
           exists c, text, p. rewrite Nat.add_0_r.
           split_and!; [done..|]. intros j'' c'' Hlt. lia.
        -- change ((S <$> js) !! k = Some j') in Hj'.
           rewrite list_lookup_fmap in Hj'.
           destruct (js !! k) as [x|] eqn:Hx; [|done]. injection Hj' as <-.
           destruct (Hjs k x Hx)
             as (Hle & c' & s & p' & Hc' & Hs & Hitem & Hrs & Hps & Hnot & Hfirst).
           split; [lia|]. exists c', s, p'. rewrite Nat.add_succ_r.
           split_and!; [done..| |].
           ++ intros Hs'. apply Hnot, elem_of_app. by left.
           ++ intros [|j''] c'' Hlt Hc''.
              ** injection Hc'' as <-. rewrite Htext. intros [= ->].
                 apply Hnot, elem_of_app. right. left.
              ** apply (Hfirst j'' c''); [lia|done].
    + apply IH in Hok as (rs & ps & js & -> & -> & Hlr & Hlp & Hmono & Hjs).
      exists rs, ps, (S <$> js).
      split_and!; [done|done|by rewrite length_fmap|by rewrite length_fmap| |].
      * intros k1 k2 j1 j2 Hk H1 H2. rewrite list_lookup_fmap in H1, H2.
        destruct (js !! k1) as [x1|] eqn:Hx1; [|done].
        destruct (js !! k2) as [x2|] eqn:Hx2; [|done].
        simplify_eq/=. apply (Hmono k1 k2 x1 x2) in Hx1; [lia|lia|done].
      * intros k j' Hj'. rewrite list_lookup_fmap in Hj'.
        destruct (js !! k) as [x|] eqn:Hx; [|done]. injection Hj' as <-.
        destruct (Hjs k x Hx)
          as (Hle & c' & s & p' & Hc' & Hs & Hitem & Hrs & Hps & Hnot & Hfirst).
        split; [lia|]. exists c', s, p'. rewrite Nat.add_succ_r.
        split_and!; [done..|].
        intros [|j''] c'' Hlt Hc''.
        -- injection Hc'' as <-. rewrite Htext. by intros [= ->].
        -- apply (Hfirst j'' c''); [lia|done].
Qed.

(** The loop raises only on a missing entry of [output_probs], with
    [IndexError], or with what [tokenizer.decode] raises on a candidate. *)
Lemma candidates_loop_raise output_i i j returns_i probs_i e :
  cands_loop i j output_i returns_i probs_i = Raise e →
  (e = IndexError ∧
   ∃ k, (k < length output_i)%nat ∧
        probs_item prob output_probs i (j + k) = Raise IndexError) ∨
  (∃ c, c ∈ output_i ∧
        decode tokenizer (slice_from last_complete_word_position
          (truncate_at_eos (eos_token_id tokenizer) c)) = Raise e).
Proof.
  revert j returns_i probs_i.
  induction output_i as [|c rest IH]; intros j returns_i probs_i; [done|].
  cbn [candidates_loop]. rewrite candidate_text_eq.
  set (cause := (e = IndexError ∧
     ∃ k, (k < length (c :: rest))%nat ∧
          probs_item prob output_probs i (j + k) = Raise IndexError) ∨
    (∃ c', c' ∈ c :: rest ∧
          decode tokenizer (slice_from last_complete_word_position
            (truncate_at_eos (eos_token_id tokenizer) c')) = Raise e)).
  assert (∀ R P, cands_loop i (S j) rest R P = Raise e → cause) as Hrest.
  { intros R P [(-> & k & Hk & Hitem)|(c' & Hc' & Hd)]%IH.
    - left. split; [done|]. exists (S k).
      rewrite Nat.add_succ_r. split; [simpl; lia|done].
    - right. exists c'. split; [by right|done]. }
  assert (probs_item prob output_probs i j = Raise e → cause) as Hhere.
  { intros Hitem. pose proof (probs_item_raise _ _ _ _ Hitem) as ->.
    left. split; [done|]. exists 0%nat. rewrite Nat.add_0_r. split; [simpl; lia|done]. }
  assert (∀ e', decode tokenizer (slice_from last_complete_word_position
            (truncate_at_eos (eos_token_id tokenizer) c)) = Raise e' →
          e' = e → cause) as Hdec.
  { intros e' Hd ->. right. exists c. split; [left|done]. }
  assert (∀ res : result string,
    decode tokenizer (slice_from last_complete_word_position
      (truncate_at_eos (eos_token_id tokenizer) c)) = res →
    ((res ≫= λ decoded, Ok (rstrip decoded)) ≫= λ output_text,
       if bool_decide (output_text ∉ returns_i)
       then probs_item prob output_probs i j ≫= λ p,
              cands_loop i (S j) rest (returns_i ++ [output_text]) (probs_i ++ [p])
       else cands_loop i (S j) rest returns_i probs_i) = Raise e → cause) as Hbody.
  { intros [decoded|e'] Hres; cbn [mbind result_bind].
    - case_bool_decide; [|apply Hrest].
      destruct (probs_item prob output_probs i j) as [p|e''] eqn:Hp;
        cbn [mbind result_bind]; [apply Hrest|].
      intros [= ->]. by apply Hhere.
    - intros [= ->]. by apply (Hdec e). }
  destruct returns_i as [|x returns_i']; cbn [mbind result_bind].
  - by apply Hbody.
  - destruct (probs_item prob output_probs i j) as [p|e'] eqn:Hp;
      cbn [mbind result_bind].
    + destruct (negative p); [done|]. by apply Hbody.
    + intros [= ->]. by apply Hhere.
Qed.

(** Without a negative probability after the first candidate the loop
    never stops early: the text of every candidate is returned. *)
Lemma candidates_loop_all output_i i j returns_i probs_i r pr :
  cands_loop i j output_i returns_i probs_i = Ok (r, pr) →
  (∀ k p, (k < length output_i)%nat → returns_i ≠ [] ∨ (0 < k)%nat →
     probs_item prob output_probs i (j + k) = Ok p → negative p = false) →
  ∀ c, c ∈ output_i → ∃ s, cand_text c = Ok s ∧ s ∈ r.
Proof.
  revert j returns_i probs_i.
  induction output_i as [|c0 rest IH]; intros j returns_i probs_i Hok Hnn c Hc;
    [inversion Hc|].
  assert (∀ R : list string, R ≠ [] →
    ∀ k p, (k < length rest)%nat → R ≠ [] ∨ (0 < k)%nat →
      probs_item prob output_probs i (S j + k) = Ok p → negative p = false) as Hnn'.
  { intros R _ k p Hk _ Hp. apply (Hnn (S k) p); [simpl; lia|right; lia|].
    by rewrite Nat.add_succ_r. }
  apply candidates_loop_cons_Ok in Hok
    as [(Hr & (p & Hp & Hneg) & _)
       |(_ & text & Htext & [(Hin & p & _ & Hok)|(Hin & Hok)])].
  - rewrite (Hnn 0%nat p) in Hneg; [done|simpl; lia|by left|by rewrite Nat.add_0_r].
  - apply elem_of_cons in Hc as [->|Hc].
    + exists text. split; [done|].
      apply candidates_loop_pairs in Hok as (rs & ps & -> & _).
      rewrite !elem_of_app, list_elem_of_singleton. auto.
    + apply (IH _ _ _ Hok); [|done]. apply Hnn'. by destruct returns_i.
  - assert (returns_i ≠ []) as Hne by (intros ->; inversion Hin).
    apply elem_of_cons in Hc as [->|Hc].
    + exists text. split; [done|].
      apply candidates_loop_pairs in Hok as (rs & ps & -> & _).
      rewrite elem_of_app. auto.
    + apply (IH _ _ _ Hok); [|done]. by apply Hnn'.
Qed.

Lemma rows_loop_raise output_ids i returns returns_probs e :
  rows_loop prob negative tokenizer output_probs last_complete_word_position
    i output_ids returns returns_probs = Raise e →
  (e = IndexError ∧
   ∃ k output_i j, output_ids !! k = Some output_i ∧ (j < length output_i)%nat ∧
     probs_item prob output_probs (i + k) j = Raise IndexError) ∨
  (∃ k output_i output_ij, output_ids !! k = Some output_i ∧ output_ij ∈ output_i ∧
     decode tokenizer (slice_from last_complete_word_position
       (truncate_at_eos (eos_token_id tokenizer) output_ij)) = Raise e).
Proof.
  revert i returns returns_probs.
  induction output_ids as [|output_i rest IH]; intros i returns returns_probs; [done|].
  cbn [rows_loop].
  destruct (cands_loop i 0 output_i [] []) as [[r pr]|e'] eqn:Hrow;
    cbn [mbind result_bind].
  - intros [(-> & k & output_i' & j & Hk & Hj & Hitem)
           |(k & output_i' & c & Hk & Hc & Hd)]%IH.
    + left. split; [done|].
      exists (S k), output_i', j. rewrite Nat.add_succ_r. by split_and!.
    + right. by exists (S k), output_i', c.
  - intros [= ->].
    apply candidates_loop_raise in Hrow as [(-> & j & Hj & Hitem)|(c & Hc & Hd)].
    + left. split; [done|]. exists 0%nat, output_i, j. rewrite Nat.add_0_r.
      by split_and!.
    + right. by exists 0%nat, output_i, c.
Qed.

(** X14. For an [output_ids] of two or three dimensions, [process_results]
    raises only in two ways: [IndexError], when [output_probs] has no entry
    for one of the candidates, or the error that [tokenizer.decode] raises
    on the tokens of one of the candidates.  When [tokenizer.decode]
    returns and every candidate has an entry in [output_probs], it
    returns. *)
Theorem process_results_error (output_ids : OutputIds) :
  (∀ e, process_results negative output_ids output_probs tokenizer
          last_complete_word_position = Raise e →
     (e = IndexError ∧
      ∃ i output_i j, expand_ids output_ids !! i = Some output_i ∧
        (j < length output_i)%nat ∧
        probs_item prob output_probs i j = Raise IndexError) ∨
     (∃ i output_i output_ij, expand_ids output_ids !! i = Some output_i ∧
        output_ij ∈ output_i ∧
        decode tokenizer (slice_from last_complete_word_position
          (truncate_at_eos (eos_token_id tokenizer) output_ij)) = Raise e)) ∧
  ((∀ toks, ∃ decoded, decode tokenizer toks = Ok decoded) →
   (∀ i output_i j, expand_ids output_ids !! i = Some output_i →
      (j < length output_i)%nat → ∃ p, probs_item prob output_probs i j = Ok p) →
   ∃ rets rps, process_results negative output_ids output_probs tokenizer
                 last_complete_word_position = Ok (rets, rps)).
Proof.
  split; [|apply process_results_returns].
  intros e He. by apply rows_loop_raise in He.
Qed.

(** X15. For a two-dimensional [output_ids] every row gets exactly one
    suggestion, the text of the row, with the probability
    [output_probs[i, 0]], whatever its sign. *)
Theorem process_results_two_dimensional (rows : list (list Z)) rets rps :
  process_results negative (Ids2 rows) output_probs tokenizer
    last_complete_word_position = Ok (rets, rps) →
  length rets = length rows ∧ length rps = length rows ∧
  ∀ i row, rows !! i = Some row →
    ∃ s p, candidate_text tokenizer last_complete_word_position row = Ok s ∧
           probs_item prob output_probs i 0 = Ok p ∧
           rets !! i = Some [s] ∧ rps !! i = Some [p].
Proof.
  intros (Hlr & Hlp & Hrows)%process_results_rows.
  cbn [expand_ids] in Hlr, Hlp, Hrows. rewrite length_fmap in Hlr, Hlp.
  split_and!; [done..|]. intros i row Hi.
  destruct (Hrows i [row]) as (r & pr & Hloop & Hr & Hpr).
  { by rewrite list_lookup_fmap, Hi. }
  apply candidates_loop_cons_Ok in Hloop
    as [(Hne & _)|(_ & text & Htext & [(_ & p & Hp & Hok)|(Hin & _)])].
  - done.
  - simplify_eq/=. by exists text, p.
  - inversion Hin.
Qed.

(** X16. Each suggestion of a row is paired with the probability of the
    candidate it was decoded from, and the pairs keep the order of the
    candidates.  There is a list [js] of positions in the row, one for each
    pair and strictly increasing, such that the pair at position [k] is the
    text of the candidate at position [js[k] >= k] with the entry of
    [output_probs] at that position, and that candidate is the first one of
    the row with that text. *)
Theorem process_results_pairs (output_ids : OutputIds) rets rps i output_i :
  process_results negative output_ids output_probs tokenizer
    last_complete_word_position = Ok (rets, rps) →
  expand_ids output_ids !! i = Some output_i →
  ∃ returns_i probs_i js,
    rets !! i = Some returns_i ∧ rps !! i = Some probs_i ∧
    length js = length returns_i ∧ length js = length probs_i ∧
    (∀ k1 k2 j1 j2, (k1 < k2)%nat →
       js !! k1 = Some j1 → js !! k2 = Some j2 → (j1 < j2)%nat) ∧
    (∀ k j, js !! k = Some j →
       (k ≤ j)%nat ∧
       ∃ output_ij s p,
         output_i !! j = Some output_ij ∧
         candidate_text tokenizer last_complete_word_position output_ij = Ok s ∧
         probs_item prob output_probs i j = Ok p ∧
         returns_i !! k = Some s ∧ probs_i !! k = Some p ∧
         ∀ j' output_ij', (j' < j)%nat → output_i !! j' = Some output_ij' →
           candidate_text tokenizer last_complete_word_position output_ij' ≠ Ok s).
Proof.
  intros (_ & _ & Hrows)%process_results_rows Hi.
  destruct (Hrows i output_i Hi) as (r & pr & Hloop & Hr & Hpr).
  apply candidates_loop_indices in Hloop
    as (rs & ps & js & -> & -> & Hlr & Hlp & Hmono & Hjs).
  rewrite !app_nil_l in Hr, Hpr.
  exists rs, ps, js. split_and!; [done..|].
  intros k j Hj.
  destruct (Hjs k j Hj)
    as (Hle & c & s & p & Hc & Hs & Hitem & Hrs & Hps & _ & Hfirst).
  split; [done|]. by exists c, s, p.
Qed.

(** X17. Only the first probability returned for a row can be negative. *)
Theorem process_results_probs_not_negative (output_ids : OutputIds) rets rps i probs_i :
  process_results negative output_ids output_probs tokenizer
    last_complete_word_position = Ok (rets, rps) →
  rps !! i = Some probs_i →
  ∀ k p, (0 < k)%nat → probs_i !! k = Some p → negative p = false.
Proof.
  intros (Hlr & Hlp & Hrows)%process_results_rows Hi k p Hk Hp.
  destruct (lookup_lt_is_Some_2 (expand_ids output_ids) i) as [output_i Ho].
  { rewrite <- Hlp. by eapply lookup_lt_Some. }
  destruct (Hrows i output_i Ho) as (r & pr & Hloop & Hr & Hpr). simplify_eq.
  apply candidates_loop_pairs in Hloop as (rs & ps & -> & -> & _ & _ & _ & Hneg).
  rewrite app_nil_l in Hp. apply (Hneg k p Hp). by right.
Qed.

(** X18. When no candidate of a row after the first has a negative
    probability, nothing stops the row early: the text of each of its
    candidates is among its suggestions. *)
Theorem process_results_all_collected (output_ids : OutputIds) rets rps i output_i :
  process_results negative output_ids output_probs tokenizer
    last_complete_word_position = Ok (rets, rps) →
  expand_ids output_ids !! i = Some output_i →
  (∀ j p, (0 < j)%nat → probs_item prob output_probs i j = Ok p → negative p = false) →
  ∃ returns_i, rets !! i = Some returns_i ∧
    ∀ output_ij, output_ij ∈ output_i →
      ∃ s, candidate_text tokenizer last_complete_word_position output_ij = Ok s ∧
           s ∈ returns_i.
Proof.
  intros (_ & _ & Hrows)%process_results_rows Hi Hnn.
  destruct (Hrows i output_i Hi) as (r & pr & Hloop & Hr & Hpr).
  exists r. split; [done|].
  apply (candidates_loop_all _ _ _ _ _ _ _ Hloop).
  intros k p _ [?|Hk] Hp; [done|]. by apply (Hnn k p).
Qed.

(** X19. A row never gets more suggestions than it has candidates, and a
    row with a candidate gets at least one. *)
Theorem process_results_suggestion_count (output_ids : OutputIds) rets rps i output_i :
  process_results negative output_ids output_probs tokenizer
    last_complete_word_position = Ok (rets, rps) →
  expand_ids output_ids !! i = Some output_i →
  ∃ returns_i, rets !! i = Some returns_i ∧
    (length returns_i ≤ length output_i)%nat ∧
    (output_i ≠ [] → returns_i ≠ []).
Proof.
  intros (_ & _ & Hrows)%process_results_rows Hi.
  destruct (Hrows i output_i Hi) as (r & pr & Hloop & Hr & Hpr).
  exists r. split_and!; [done| |].
  - by apply candidates_loop_pairs in Hloop as (rs & ps & -> & _ & _ & ? & _).
  - destruct output_i as [|c rest]; [done|]. intros _.
    apply candidates_loop_first in Hloop as (s & _ & Hhead). by destruct r.
Qed.

(** X20. No suggestion ends in a whitespace character. *)
Theorem process_results_no_trailing_space (output_ids : OutputIds) rets rps i returns_i :
  process_results negative output_ids output_probs tokenizer
    last_complete_word_position = Ok (rets, rps) →
  rets !! i = Some returns_i →
  ∀ s, s ∈ returns_i → ∀ s' c, s = s' +:+ String c "" → isspace c = false.
Proof.
  intros (Hlr & _ & Hrows)%process_results_rows Hi s Hs s' c ->.
  destruct (lookup_lt_is_Some_2 (expand_ids output_ids) i) as [output_i Ho].
  { rewrite <- Hlr. by eapply lookup_lt_Some. }
  destruct (Hrows i output_i Ho) as (r & pr & Hloop & Hr & Hpr). simplify_eq.
  destruct (candidates_loop_origin _ _ _ _ _ _ _ _ _ _ _ _ Hloop _ Hs)
    as [Hnil|(cand & _ & Htext)]; [inversion Hnil|].
  rewrite candidate_text_eq in Htext.
  destruct (decode tokenizer _) as [decoded|e]; [|done].
  injection Htext as Htext.
  destruct (rstrip_spec decoded) as (_ & _ & _ & Hlast).
  by apply (Hlast s').
Qed.

Lemma truncate_at_eos_split (eos : Z) (toks : list Z) :
  ∃ rest, toks = truncate_at_eos eos toks ++ rest ∧
          (eos ∉ truncate_at_eos eos toks) ∧
          (rest = [] ∨ head rest = Some eos).
Proof.
  induction toks as [|t toks (rest & Hsplit & Hnot & Hrest)].
  - exists []. split_and!; [done|by intros ?%elem_of_nil|by left].
  - rewrite truncate_at_eos_cons. case_decide as Ht.
    + subst t. exists (eos :: toks). split_and!; [done|by intros ?%elem_of_nil|by right].
    + exists rest. split_and!; [by rewrite <- app_comm_cons, <- Hsplit| |done].
      intros [?|?]%elem_of_cons; [by subst|done].
Qed.

Lemma slice_from_suffix {A} (n : Z) (l : list A) : ∃ pre, l = pre ++ slice_from n l.
Proof.
  unfold slice_from. destruct (n <? 0); eexists; by rewrite take_drop.
Qed.

(** X21. What is given to [tokenizer.decode] is a stretch of consecutive
    tokens of the candidate that holds no [eos_token_id]; what comes before
    it holds none either, and what comes after it is nothing or begins with
    [eos_token_id]. *)
Theorem candidate_text_decoded_tokens (output_ij : list Z) :
  ∃ before toks after,
    candidate_text tokenizer last_complete_word_position output_ij =
      (decoded ← decode tokenizer toks; Ok (rstrip decoded)) ∧
    output_ij = before ++ toks ++ after ∧
    (eos_token_id tokenizer ∉ before ++ toks) ∧
    (after = [] ∨ head after = Some (eos_token_id tokenizer)).
Proof.
  rewrite candidate_text_eq.
  destruct (truncate_at_eos_split (eos_token_id tokenizer) output_ij)
    as (after & Hsplit & Hnot & Hafter).
  destruct (slice_from_suffix last_complete_word_position
              (truncate_at_eos (eos_token_id tokenizer) output_ij)) as [before Hpre].
  exists before, (slice_from last_complete_word_position
                    (truncate_at_eos (eos_token_id tokenizer) output_ij)), after.
  split_and!; [done| |by rewrite <- Hpre|done].
  by rewrite (assoc_L (++)), <- Hpre.
Qed.

(** X22. With a negative [last_complete_word_position] the slice counts
    from the end: the text is decoded from the last
    [-last_complete_word_position] tokens of the truncated list, from all
    of them when there are fewer. *)
Theorem candidate_text_negative_position (output_ij : list Z) :
  last_complete_word_position < 0 →
  let truncated := truncate_at_eos (eos_token_id tokenizer) output_ij in
  let kept :=
    drop (length truncated - Z.to_nat (- last_complete_word_position)) truncated in
  candidate_text tokenizer last_complete_word_position output_ij =
    (decoded ← decode tokenizer kept; Ok (rstrip decoded)) ∧
  length kept = Nat.min (length truncated) (Z.to_nat (- last_complete_word_position)).
Proof.
  intros Hneg truncated kept. rewrite candidate_text_eq. fold truncated.
  unfold slice_from. rewrite (proj2 (Z.ltb_lt _ _) Hneg).
  replace (Z.to_nat (Z.of_nat (length truncated) + last_complete_word_position))
    with (length truncated - Z.to_nat (- last_complete_word_position))%nat by lia.
  split; [done|]. subst kept. rewrite length_drop. lia.
Qed.

(** X23. When no candidate of the batch has more than
    [last_complete_word_position] tokens before its first [eos_token_id],
    every candidate decodes the empty token list, so a row gets at most one
    suggestion. *)
Theorem process_results_position_past_end (output_ids : OutputIds) rets rps :
  process_results negative output_ids output_probs tokenizer
    last_complete_word_position = Ok (rets, rps) →
  (∀ i output_i output_ij, expand_ids output_ids !! i = Some output_i →
     output_ij ∈ output_i →
     Z.of_nat (length (truncate_at_eos (eos_token_id tokenizer) output_ij))
       ≤ last_complete_word_position) →
  ∀ i returns_i, rets !! i = Some returns_i →
    returns_i = [] ∨
    ∃ decoded, decode tokenizer [] = Ok decoded ∧ returns_i = [rstrip decoded].
Proof.
  intros (Hlr & _ & Hrows)%process_results_rows Hshort i returns_i Hi.
  destruct (lookup_lt_is_Some_2 (expand_ids output_ids) i) as [output_i Ho].
  { rewrite <- Hlr. by eapply lookup_lt_Some. }
  destruct (Hrows i output_i Ho) as (r & pr & Hloop & Hr & Hpr).
  assert (returns_i = r) as -> by congruence.
  assert (∀ s, s ∈ r →
    ∃ decoded, decode tokenizer [] = Ok decoded ∧ s = rstrip decoded) as Hall.
  { intros s Hs.
    destruct (candidates_loop_origin _ _ _ _ _ _ _ _ _ _ _ _ Hloop _ Hs)
      as [Hnil|(cand & Hcand & Htext)]; [inversion Hnil|].
    rewrite candidate_text_eq in Htext.
    pose proof (Hshort i output_i cand Ho Hcand) as Hlen.
    rewrite slice_from_nonneg in Htext by lia. rewrite drop_ge in Htext by lia.
    destruct (decode tokenizer []) as [decoded|e]; [|done].
    injection Htext as <-. by exists decoded. }
  apply candidates_loop_inv in Hloop as (_ & Hnd & _); [|done|constructor].
  destruct r as [|s1 [|s2 r]]; [by left| |].
  - right. destruct (Hall s1) as (decoded & Hd & ->); [left|]. by exists decoded.
  - exfalso. apply NoDup_cons in Hnd as [Hnot _]. apply Hnot.
    destruct (Hall s1) as (d1 & Hd1 & ->); [left|].
    destruct (Hall s2) as (d2 & Hd2 & ->); [right; left|].
    assert (d1 = d2) as -> by congruence. left.
Qed.
End ProcessResultsMore.

(** *** [autocomplete] *)

Lemma process_results_invariants {prob} (negative : prob → bool) output_ids
    output_probs tokenizer last_complete_word_position rets rps :
  process_results negative output_ids output_probs tokenizer
    last_complete_word_position = Ok (rets, rps) →
  length rets = length (expand_ids output_ids) ∧
  length rps = length rets ∧
  Forall2 (λ returns_i probs_i, length returns_i = length probs_i) rets rps ∧
  Forall NoDup rets.
Proof.
  intros (Hlr & Hlp & Hrows)%process_results_rows.
  assert (∀ i returns_i, rets !! i = Some returns_i →
    ∃ probs_i, rps !! i = Some probs_i ∧
      length returns_i = length probs_i ∧ NoDup returns_i) as Hrow.
  { intros i returns_i Hi.
    destruct (lookup_lt_is_Some_2 (expand_ids output_ids) i) as [output_i Ho].
    { rewrite <- Hlr. by eapply lookup_lt_Some. }
    destruct (Hrows i output_i Ho) as (r & pr & Hloop & Hr & Hpr).
    assert (returns_i = r) as -> by congruence. exists pr. split; [done|].
    apply candidates_loop_inv in Hloop as (? & ? & _); [done..|constructor]. }
  split_and!; [done|congruence| |].
  - apply Forall2_same_length_lookup. split; [congruence|].
    intros i returns_i probs_i Hr Hp.
    destruct (Hrow i returns_i Hr) as (probs_i' & ? & ? & _). congruence.
  - apply Forall_lookup. intros i returns_i Hr.
    by destruct (Hrow i returns_i Hr) as (_ & _ & _ & ?).
Qed.

Section AutocompleteFacts.
Variables prob penalty tensor masks wrapper : Type.
Variable negative : prob → bool.
Variable encode_text_with_partial_word :
  string → Z → string → result (tensor * masks * Z).
Variable size_1 : tensor → Z.
Variable generate :
  LMGenerator penalty → wrapper → tensor → masks →
  result (OutputIds * list (list prob)).

Abbreviation autocomplete' :=
  (autocomplete prob penalty tensor masks wrapper negative
     encode_text_with_partial_word size_1 generate).

(** X24. [autocomplete] passes on the error of the encoder without calling
    the generator.  When it returns, the generator was asked to pad and to
    stop with the tokenizer's [eos_token_id] (the [pad_token_id] argument
    only reaches the encoder) for at most [num_words] tokens more than the
    input has, and the result has one list of pairwise distinct suggestions
    per generated row, with as many probabilities. *)
Theorem autocomplete_spec (args : Args penalty) (model : wrapper) (tokenizer : Tokenizer)
    (input_text : string) (pad_token_id : Z) (is_onnx_model : bool) :
  (∀ e, encode_text_with_partial_word input_text pad_token_id (device args) = Raise e →
     autocomplete' args model tokenizer input_text pad_token_id is_onnx_model = Raise e) ∧
  (∀ rets rps,
     autocomplete' args model tokenizer input_text pad_token_id is_onnx_model
       = Ok (rets, rps) →
     ∃ input_ids first_token_masks position generator output_ids output_probs,
       encode_text_with_partial_word input_text pad_token_id (device args) =
         Ok (input_ids, first_token_masks, position) ∧
       generate generator model input_ids first_token_masks =
         Ok (output_ids, output_probs) ∧
       g_pad_token_id generator = eos_token_id tokenizer ∧
       g_eos_token_ids generator = [eos_token_id tokenizer] ∧
       g_max_length generator = size_1 input_ids + num_words args ∧
       length rets = length (expand_ids output_ids) ∧
       length rps = length rets ∧
       Forall2 (λ returns_i probs_i, length returns_i = length probs_i) rets rps ∧
       Forall NoDup rets).
Proof.
  unfold autocomplete. split.
  - intros e ->. done.
  - intros rets rps.
    destruct (encode_text_with_partial_word input_text pad_token_id (device args))
      as [[[input_ids first_token_masks] position]|e]; [|done].
    cbn [mbind result_bind].
    destruct (generate _ model input_ids first_token_masks)
      as [[output_ids output_probs]|e] eqn:Hgen; [|done].
    cbn [mbind result_bind]. intros Hok.
    apply process_results_invariants in Hok as (? & ? & ? & ?).
    eexists input_ids, first_token_masks, position, _, output_ids, output_probs.
    split_and!; [done|exact Hgen|done..].
Qed.
End AutocompleteFacts.

(** ** The further properties on the sample inputs *)

Lemma get_model_parameters_partition_witness :
  let m := model (sample_accessor [sample_weight; sample_constant]) in
  get_model_parameters m [] = Ok ([sample_weight], []) ∧
  [sample_weight] `sublist_of` initializer (graph m) ∧
  [sample_weight] ++ [] ≡ₚ
    filter (λ t, ¬ begins_with_digit (t_name t)) (initializer (graph m)).
Proof.
  intros m.
  assert (get_model_parameters m [] = Ok ([sample_weight], [])) as Hok by reflexivity.
  split; [exact Hok|].
  destruct (get_model_parameters_partition m [] _ _ Hok) as (Hsub & _ & _ & Hperm).
  split; [exact Hsub|exact Hperm].
Defined.

Lemma build_gradient_graph_unnamed_initializer_witness :
  let accessor := sample_accessor [sample_weight; sample_unnamed; sample_constant] in
  let r := build_gradient_graph identity_builder [] [] (OneName "loss") accessor in
  initializer (graph (model accessor)) = [sample_weight] ++ sample_unnamed :: [sample_constant] ∧
  Forall (λ t, t_name t ≠ "") [sample_weight] ∧
  t_name sample_unnamed = "" ∧
  r.1 = Raise IndexError ∧
  initializer (graph (model r.2)) = initializer (graph (model accessor)) ∧
  eval_model r.2 = eval_model accessor.
Proof.
  intros accessor r.
  assert (initializer (graph (model accessor)) =
            [sample_weight] ++ sample_unnamed :: [sample_constant]) as H1 by reflexivity.
  assert (Forall (λ t, t_name t ≠ "") [sample_weight]) as H2 by (by repeat constructor).
  assert (t_name sample_unnamed = "") as H3 by reflexivity.
  split; [exact H1|]. split; [exact H2|]. split; [exact H3|].
  destruct (build_gradient_graph_unnamed_initializer identity_builder [] []
              (OneName "loss") accessor _ _ _ H1 H2 H3) as (Hr & Hi & _ & _ & _ & He).
  split; [exact Hr|]. split; [exact Hi|exact He].
Defined.


Lemma build_gradient_graph_eval_model_names_witness :
  let accessor := sample_accessor [sample_weight; sample_constant] in
  let r := build_gradient_graph identity_builder [] [] (OneName "loss") accessor in
  Forall (λ t, t_name t ≠ "") (initializer (graph (model accessor))) ∧
  ∃ m1,
    eval_model r.2 = Some m1 ∧
    (vi_name <$> input (graph m1)) ++ (t_name <$> initializer (graph m1)) ≡ₚ
      [] ++ ["fc1.weight"; "12.shape"].
Proof.
  intros accessor r.
  assert (Forall (λ t, t_name t ≠ "") (initializer (graph (model accessor)))) as Hne
    by (by repeat constructor).
  split; [exact Hne|].
  destruct (build_gradient_graph_eval_model_names identity_builder [] []
              (OneName "loss") accessor Hne) as (m1 & He & Hperm & _).
  exists m1. split; [exact He|exact Hperm].
Defined.

Lemma build_gradient_graph_eval_model_parameters_witness :
  let accessor := sample_accessor [sample_weight; sample_constant] in
  let r := build_gradient_graph identity_builder [] [] (OneName "loss") accessor in
  Forall (λ t, t_name t ≠ "") (initializer (graph (model accessor))) ∧
  ∃ m1, eval_model r.2 = Some m1 ∧ get_model_parameters m1 [] = Ok ([], []).
Proof.
  intros accessor r.
  assert (Forall (λ t, t_name t ≠ "") (initializer (graph (model accessor)))) as Hne
    by (by repeat constructor).
  split; [exact Hne|].
  destruct (build_gradient_graph_eval_model_parameters identity_builder [] []
              (OneName "loss") accessor Hne) as (m1 & He & Hp).
  exists m1. split; [exact He|apply Hp].
Defined.

Lemma build_gradient_graph_returns_trainable_witness :
  let accessor := sample_accessor [sample_weight; sample_constant] in
  ∃ s,
    (build_gradient_graph identity_builder ["x"] [] (OneName "loss") accessor).1 = Ok s ∧
    s = list_to_set (t_name <$> [sample_weight]) ∪ list_to_set ["x"].
Proof.
  intros accessor.
  destruct (build_gradient_graph identity_builder ["x"] [] (OneName "loss") accessor).1
    as [s|e] eqn:Hr; [|by vm_compute in Hr].
  exists s. split; [reflexivity|].
  destruct (build_gradient_graph_returns_trainable identity_builder ["x"] []
              (OneName "loss") accessor s Hr) as (tr & ntr & Hp & ->).
  assert (tr = [sample_weight]) as -> by (by vm_compute in Hp; injection Hp as <- <-).
  reflexivity.
Defined.

Lemma build_gradient_accumulation_graph_no_gradient_witness :
  (∀ o arg, o ∈ output (graph sample_grad_model) → arg ∈ (∅ : gset string) →
     vi_name o ≠ arg +:+ "_grad") ∧
  node (graph (build_gradient_accumulation_graph ∅ sample_grad_model).2) = [] ∧
  output (graph (build_gradient_accumulation_graph ∅ sample_grad_model).2) =
    output (graph sample_grad_model).
Proof.
  assert (∀ o arg, o ∈ output (graph sample_grad_model) → arg ∈ (∅ : gset string) →
            vi_name o ≠ arg +:+ "_grad") as Hno
    by (intros o arg _ Harg; by apply not_elem_of_empty in Harg).
  split; [exact Hno|].
  rewrite (build_gradient_accumulation_graph_no_gradient sample_grad_model ∅ Hno).
  split; reflexivity.
Defined.

Lemma get_output_after_accumulation_witness :
  let m := (build_gradient_accumulation_graph {["w"]} sample_grad_model).2 in
  sample_value_info "w_grad" ∈ output (graph sample_grad_model) ∧
  "w" ∈ ({["w"]} : gset string) ∧
  (∃ msg, (get_output_from_output_name "w_grad" m).1 = Raise (LookupError msg)) ∧
  (∃ o, (get_output_from_output_name "w_grad.accumulation.out" m).1 = Ok o ∧
        vi_name o = "w_grad.accumulation.out").
Proof.
  intros m.
  assert (sample_value_info "w_grad" ∈ output (graph sample_grad_model)) as Hg
    by (right; left).
  assert ("w" ∈ ({["w"]} : gset string)) as Harg by (by apply elem_of_singleton).
  split; [exact Hg|]. split; [exact Harg|].
  exact (get_output_after_accumulation sample_grad_model {["w"]}
           (sample_value_info "w_grad") "w" Hg Harg eq_refl).
Defined.

Lemma generate_random_graph_name_token_witness :
  (∀ a b s, a ≤ b → ∃ n s', lcg_randint a b s = (Ok n, s') ∧ a ≤ n ≤ b) ∧
  generate_random_graph_name Z lcg_randint "fc1" 5 =
    (Ok "5.fc1", (generate_random_graph_name Z lcg_randint "fc1" 5).2) ∧
  generate_random_graph_name Z lcg_randint "fc1" 1006 =
    (Ok "5.fc1", (generate_random_graph_name Z lcg_randint "fc1" 1006).2) ∧
  (get_random_number Z lcg_randint 5).1 = (get_random_number Z lcg_randint 1006).1.
Proof.
  assert (generate_random_graph_name Z lcg_randint "fc1" 5 =
    (Ok "5.fc1", (generate_random_graph_name Z lcg_randint "fc1" 5).2)) as H1
    by reflexivity.
  assert (generate_random_graph_name Z lcg_randint "fc1" 1006 =
    (Ok "5.fc1", (generate_random_graph_name Z lcg_randint "fc1" 1006).2)) as H2
    by reflexivity.
  split; [exact lcg_randint_range|]. split; [exact H1|]. split; [exact H2|].
  exact (proj2 (generate_random_graph_name_token Z lcg_randint lcg_randint_range
                  "fc1" "fc1" 5 1006 "5.fc1" _ _ H1 H2)).
Defined.

Lemma build_gradient_graph_keeps_generated_names_witness :
  let accessor := sample_accessor [sample_weight; sample_generated] in
  let r := build_gradient_graph identity_builder [] [] (OneName "loss") accessor in
  (∀ a b s, a ≤ b → ∃ n s', lcg_randint a b s = (Ok n, s') ∧ a ≤ n ≤ b) ∧
  generate_random_graph_name Z lcg_randint "shape" 2024 =
    (Ok "22.shape", (generate_random_graph_name Z lcg_randint "shape" 2024).2) ∧
  Forall (λ t, t_name t ≠ "") (initializer (graph (model accessor))) ∧
  sample_generated ∈ initializer (graph (model accessor)) ∧
  ∃ m1, eval_model r.2 = Some m1 ∧ sample_generated ∈ initializer (graph m1).
Proof.
  intros accessor r.
  assert (generate_random_graph_name Z lcg_randint "shape" 2024 =
    (Ok "22.shape", (generate_random_graph_name Z lcg_randint "shape" 2024).2)) as Hgen
    by reflexivity.
  assert (Forall (λ t, t_name t ≠ "") (initializer (graph (model accessor)))) as Hne
    by (by repeat constructor).
  assert (sample_generated ∈ initializer (graph (model accessor))) as Hin
    by (right; left).
  split; [exact lcg_randint_range|]. split; [exact Hgen|].
  split; [exact Hne|]. split; [exact Hin|].
  destruct (build_gradient_graph_keeps_generated_names Z lcg_randint lcg_randint_range
              identity_builder "shape" 2024 "22.shape" _ [] [] (OneName "loss")
              accessor sample_generated Hgen Hne Hin eq_refl) as (m1 & He & Hm & _).
  exists m1. split; [exact He|exact Hm].
Defined.

Lemma process_results_error_witness :
  process_results (λ p, p <? 0) (Ids2 [[5; 42; 0]]) [[1]] sample_small_tokenizer 1 =
    Raise (LookupError "unknown token id") ∧
  (∃ i output_i output_ij,
     expand_ids (Ids2 [[5; 42; 0]]) !! i = Some output_i ∧ output_ij ∈ output_i ∧
     decode sample_small_tokenizer (slice_from 1 (truncate_at_eos 0 output_ij)) =
       Raise (LookupError "unknown token id")) ∧
  process_results (λ p, p <? 0) (Ids2 [[5; 6; 0]]) [] sample_small_tokenizer 1 =
    Raise IndexError ∧
  (∃ i output_i j,
     expand_ids (Ids2 [[5; 6; 0]]) !! i = Some output_i ∧ (j < length output_i)%nat ∧
     probs_item Z [] i j = Raise IndexError) ∧
  ∃ rets rps,
    process_results (λ p, p <? 0) sample_output_ids sample_output_probs
      sample_tokenizer 1 = Ok (rets, rps).
Proof.
  assert (process_results (λ p, p <? 0) (Ids2 [[5; 42; 0]]) [[1]]
            sample_small_tokenizer 1 = Raise (LookupError "unknown token id"))
    as Hdecode by reflexivity.
  assert (process_results (λ p, p <? 0) (Ids2 [[5; 6; 0]]) []
            sample_small_tokenizer 1 = Raise IndexError) as Hprobs by reflexivity.
  split; [exact Hdecode|]. split.
  { destruct (process_results_error Z (λ p, p <? 0) sample_small_tokenizer [[1]] 1
                (Ids2 [[5; 42; 0]])) as [Hraise _].
    destruct (Hraise _ Hdecode) as [[Heq _]|Hcause]; [discriminate Heq|exact Hcause]. }
  split; [exact Hprobs|]. split.
  { destruct (process_results_error Z (λ p, p <? 0) sample_small_tokenizer [] 1
                (Ids2 [[5; 6; 0]])) as [Hraise _].
    destruct (Hraise _ Hprobs) as [[_ Hcause]|(i & output_i & output_ij & Hi & Hin & Hd)];
      [exact Hcause|].
    exfalso. destruct i as [|i]; [|discriminate Hi]. injection Hi as <-.
    apply list_elem_of_singleton in Hin as ->. discriminate Hd. }
  destruct (process_results_error Z (λ p, p <? 0) sample_tokenizer sample_output_probs 1
              sample_output_ids) as [_ Hreturns].
  apply Hreturns.
  - intros toks. by eexists.
  - intros [|i] output_i j Hi Hj; [|discriminate Hi]. injection Hi as <-.
    do 4 (destruct j as [|j]; [by eexists|]). simpl in Hj. lia.
Defined.

Lemma process_results_two_dimensional_witness :
  process_results (λ p, p <? 0) (Ids2 [[5; 6; 0; 7]; [8; 0]]) [[-1]; [3]]
    sample_tokenizer 1 = Ok ([["6"]; [""]], [[-1]; [3]]) ∧
  length [["6"]; [""]] = length [[5; 6; 0; 7]; [8; 0]] ∧
  ∃ s p, candidate_text sample_tokenizer 1 [5; 6; 0; 7] = Ok s ∧
         probs_item Z [[-1]; [3]] 0 0 = Ok p ∧
         [["6"]; [""]] !! 0%nat = Some [s] ∧ [[-1]; [3]] !! 0%nat = Some [p].
Proof.
  assert (process_results (λ p, p <? 0) (Ids2 [[5; 6; 0; 7]; [8; 0]]) [[-1]; [3]]
            sample_tokenizer 1 = Ok ([["6"]; [""]], [[-1]; [3]])) as Hok by reflexivity.
  split; [exact Hok|].
  destruct (process_results_two_dimensional Z (λ p, p <? 0) sample_tokenizer
              [[-1]; [3]] 1 _ _ _ Hok) as (Hl & _ & Hrows).
  split; [exact Hl|]. exact (Hrows 0%nat [5; 6; 0; 7] eq_refl).
Defined.

Lemma process_results_pairs_witness :
  let row := [[5; 6; 0; 7]; [4; 6; 0]; [5; 7; 0]] in
  process_results (λ p, p <? 0) (Ids3 [row]) [[1; 2; 3]] sample_tokenizer 1 =
    Ok ([["6"; "7"]], [[1; 3]]) ∧
  expand_ids (Ids3 [row]) !! 0%nat = Some row ∧
  ∃ returns_i probs_i js,
    [["6"; "7"]] !! 0%nat = Some returns_i ∧ [[1; 3]] !! 0%nat = Some probs_i ∧
    length js = length returns_i ∧ length js = length probs_i ∧
    (∀ k1 k2 j1 j2, (k1 < k2)%nat →
       js !! k1 = Some j1 → js !! k2 = Some j2 → (j1 < j2)%nat) ∧
    (∀ k j, js !! k = Some j →
       (k ≤ j)%nat ∧
       ∃ output_ij s p,
         row !! j = Some output_ij ∧
         candidate_text sample_tokenizer 1 output_ij = Ok s ∧
         probs_item Z [[1; 2; 3]] 0 j = Ok p ∧
         returns_i !! k = Some s ∧ probs_i !! k = Some p ∧
         ∀ j' output_ij', (j' < j)%nat → row !! j' = Some output_ij' →
           candidate_text sample_tokenizer 1 output_ij' ≠ Ok s).
Proof.
  intros row.
  assert (process_results (λ p, p <? 0) (Ids3 [row]) [[1; 2; 3]] sample_tokenizer 1 =
            Ok ([["6"; "7"]], [[1; 3]])) as Hok by reflexivity.
  assert (expand_ids (Ids3 [row]) !! 0%nat = Some row) as Hrow by reflexivity.
  split; [exact Hok|]. split; [exact Hrow|].
  exact (process_results_pairs Z (λ p, p <? 0) sample_tokenizer [[1; 2; 3]] 1
           (Ids3 [row]) _ _ 0%nat _ Hok Hrow).
Defined.

Lemma process_results_probs_not_negative_witness :
  process_results (λ p, p <? 0) sample_output_ids sample_output_probs
    sample_tokenizer 1 = Ok ([["6"; "7"]], [[-1; 3]]) ∧
  [[-1; 3]] !! 0%nat = Some [-1; 3] ∧
  ∀ k p, (0 < k)%nat → [-1; 3] !! k = Some p → (p <? 0) = false.
Proof.
  assert (process_results (λ p, p <? 0) sample_output_ids sample_output_probs
            sample_tokenizer 1 = Ok ([["6"; "7"]], [[-1; 3]])) as Hok by reflexivity.
  split; [exact Hok|]. split; [reflexivity|].
  exact (process_results_probs_not_negative Z (λ p, p <? 0) sample_tokenizer
           sample_output_probs 1 sample_output_ids _ _ 0%nat [-1; 3] Hok eq_refl).
Defined.

Lemma process_results_all_collected_witness :
  process_results (λ p, p <? 0) sample_output_ids [[-1; 3; 2; 4]]
    sample_tokenizer 1 = Ok ([["6"; "7"; ""]], [[-1; 3; 2]]) ∧
  expand_ids sample_output_ids !! 0%nat = Some [[5; 6; 0; 7]; [5; 7; 0]; [8; 0]; [9]] ∧
  (∀ j p, (0 < j)%nat → probs_item Z [[-1; 3; 2; 4]] 0 j = Ok p → (p <? 0) = false) ∧
  ∃ returns_i, [["6"; "7"; ""]] !! 0%nat = Some returns_i ∧
    ∀ output_ij, output_ij ∈ [[5; 6; 0; 7]; [5; 7; 0]; [8; 0]; [9]] →
      ∃ s, candidate_text sample_tokenizer 1 output_ij = Ok s ∧ s ∈ returns_i.
Proof.
  assert (process_results (λ p, p <? 0) sample_output_ids [[-1; 3; 2; 4]]
            sample_tokenizer 1 = Ok ([["6"; "7"; ""]], [[-1; 3; 2]])) as Hok
    by reflexivity.
  assert (expand_ids sample_output_ids !! 0%nat =
            Some [[5; 6; 0; 7]; [5; 7; 0]; [8; 0]; [9]]) as Hrow by reflexivity.
  assert (∀ j p, (0 < j)%nat → probs_item Z [[-1; 3; 2; 4]] 0 j = Ok p →
            (p <? 0) = false) as Hnn.
  { intros j p Hj Hp.
    do 4 (destruct j as [|j]; [try lia; by injection Hp as <-|]). discriminate Hp. }
  split; [exact Hok|]. split; [exact Hrow|]. split; [exact Hnn|].
  exact (process_results_all_collected Z (λ p, p <? 0) sample_tokenizer
           [[-1; 3; 2; 4]] 1 sample_output_ids _ _ 0%nat _ Hok Hrow Hnn).
Defined.

Lemma process_results_suggestion_count_witness :
  process_results (λ p, p <? 0) sample_output_ids sample_output_probs
    sample_tokenizer 1 = Ok ([["6"; "7"]], [[-1; 3]]) ∧
  expand_ids sample_output_ids !! 0%nat = Some [[5; 6; 0; 7]; [5; 7; 0]; [8; 0]; [9]] ∧
  ∃ returns_i, [["6"; "7"]] !! 0%nat = Some returns_i ∧
    (length returns_i ≤ 4)%nat.
Proof.
  assert (process_results (λ p, p <? 0) sample_output_ids sample_output_probs
            sample_tokenizer 1 = Ok ([["6"; "7"]], [[-1; 3]])) as Hok by reflexivity.
  assert (expand_ids sample_output_ids !! 0%nat =
            Some [[5; 6; 0; 7]; [5; 7; 0]; [8; 0]; [9]]) as Hrow by reflexivity.
  split; [exact Hok|]. split; [exact Hrow|].
  destruct (process_results_suggestion_count Z (λ p, p <? 0) sample_tokenizer
              sample_output_probs 1 sample_output_ids _ _ 0%nat _ Hok Hrow)
    as (returns_i & Hr & Hle & _).
  exists returns_i. split; [exact Hr|exact Hle].
Defined.

Lemma process_results_no_trailing_space_witness :
  process_results (λ p, p <? 0) sample_output_ids sample_output_probs
    sample_tokenizer 1 = Ok ([["6"; "7"]], [[-1; 3]]) ∧
  [["6"; "7"]] !! 0%nat = Some ["6"; "7"] ∧
  ∀ s, s ∈ ["6"; "7"] → ∀ s' c, s = s' +:+ String c "" → isspace c = false.
Proof.
  assert (process_results (λ p, p <? 0) sample_output_ids sample_output_probs
            sample_tokenizer 1 = Ok ([["6"; "7"]], [[-1; 3]])) as Hok by reflexivity.
  split; [exact Hok|]. split; [reflexivity|].
  exact (process_results_no_trailing_space Z (λ p, p <? 0) sample_tokenizer
           sample_output_probs 1 sample_output_ids _ _ 0%nat _ Hok eq_refl).
Defined.

Lemma candidate_text_negative_position_witness :
  -1 < 0 ∧
  candidate_text sample_tokenizer (-1) [5; 6; 0; 7] = Ok "6" ∧
  length (drop (length (truncate_at_eos 0 [5; 6; 0; 7]) - Z.to_nat (- -1))
            (truncate_at_eos 0 [5; 6; 0; 7])) = 1%nat.
Proof.
  assert (-1 < 0) as Hneg by lia.
  split; [exact Hneg|].
  destruct (candidate_text_negative_position sample_tokenizer (-1) [5; 6; 0; 7] Hneg)
    as [Htext Hlen].
  split; [exact Htext|exact Hlen].
Defined.

Lemma process_results_position_past_end_witness :
  process_results (λ p, p <? 0) sample_output_ids sample_output_probs
    sample_tokenizer 2 = Ok ([[""]], [[-1]]) ∧
  (∀ i output_i output_ij, expand_ids sample_output_ids !! i = Some output_i →
     output_ij ∈ output_i →
     Z.of_nat (length (truncate_at_eos (eos_token_id sample_tokenizer) output_ij)) ≤ 2) ∧
  ([""] = [] ∨
   ∃ decoded, decode sample_tokenizer [] = Ok decoded ∧ [""] = [rstrip decoded]).
Proof.
  assert (process_results (λ p, p <? 0) sample_output_ids sample_output_probs
            sample_tokenizer 2 = Ok ([[""]], [[-1]])) as Hok by reflexivity.
  assert (∀ i output_i output_ij, expand_ids sample_output_ids !! i = Some output_i →
     output_ij ∈ output_i →
     Z.of_nat (length (truncate_at_eos (eos_token_id sample_tokenizer) output_ij)) ≤ 2)
    as Hshort.
  { intros [|i] output_i output_ij [= <-] Hin.
    repeat (apply elem_of_cons in Hin as [->|Hin]; [by vm_compute|]).
    inversion Hin. }
  split; [exact Hok|]. split; [exact Hshort|].
  exact (process_results_position_past_end Z (λ p, p <? 0) sample_tokenizer
           sample_output_probs 2 sample_output_ids _ _ Hok Hshort 0%nat [""] eq_refl).
Defined.
